(** * Routing engine of the disaster network simulator

    A shallow embedding of [NetworkGraph] (the graph engine of the client:
    construction of the adjacency structure, [findShortestPath],
    [findAllPaths], [getConnectedNodes], [broadcastPath]) and the properties
    of it that the specification states.

    Modelling choices:
    - a JavaScript [number] is an IEEE-754 binary64 value, here a primitive
      [float]; [Infinity], [<], [+], [*], [/] are the primitive operations;
    - a JavaScript [Map<string, V>] iterates in insertion order and [set] on
      a present key keeps the key's position: an association list with
      [map_set] updating in place or appending;
    - a JavaScript [Set<string>] is a list in insertion order;
    - [undefined] / [null] are [None];
    - [while] loops take fuel; each use is shown to have enough of it. *)

From Stdlib Require Import PrimFloat Floats.
From Stdlib Require Import String Bool ZArith Arith Lia List.
Import ListNotations.

Set Implicit Arguments.

(** ** JavaScript values *)

Module Js.

Definition number := float.

Definition Infinity : number := infinity.

(** [ToBoolean] on a number: [0], [-0] and [NaN] are falsy. *)
Definition truthy (x : number) : bool :=
  negb (PrimFloat.eqb x 0) && PrimFloat.eqb x x.

(** [v || d] for [v : number | undefined]. *)
Definition orElse (v : option number) (d : number) : number :=
  match v with
  | Some x => if truthy x then x else d
  | None => d
  end.

(** [ToBoolean] on a string: only the empty string is falsy. *)
Definition truthyStr (s : string) : bool :=
  negb (String.eqb s EmptyString).

(** [v || null] for [v : string | null | undefined]. *)
Definition strOrNull (v : option (option string)) : option string :=
  match v with
  | Some (Some s) => if truthyStr s then Some s else None
  | _ => None
  end.

End Js.

(** ** Insertion-ordered maps and sets *)

Section JsMap.

Context {V : Type}.

Definition JsMap := list (string * V).

Fixpoint map_get (k : string) (m : JsMap) : option V :=
  match m with
  | [] => None
  | (k', v) :: rest => if String.eqb k k' then Some v else map_get k rest
  end.

Definition map_has (k : string) (m : JsMap) : bool :=
  match map_get k m with
  | Some _ => true
  | None => false
  end.

Fixpoint map_set (k : string) (v : V) (m : JsMap) : JsMap :=
  match m with
  | [] => [(k, v)]
  | (k', v') :: rest =>
      if String.eqb k k' then (k, v) :: rest
      else (k', v') :: map_set k v rest
  end.

Definition map_keys (m : JsMap) : list string := map fst m.

End JsMap.

Arguments JsMap : clear implicits.

Definition JsSet := list string.

Definition set_has (k : string) (s : JsSet) : bool :=
  existsb (String.eqb k) s.

Definition set_add (k : string) (s : JsSet) : JsSet :=
  if set_has k s then s else s ++ [k].

Definition set_delete (k : string) (s : JsSet) : JsSet :=
  filter (fun x => negb (String.eqb k x)) s.

(** ** Records of the shared schema *)

Record NetworkNode := {
  node_id : Z;
  nodeId : string;
  name : string;
  latitude : Js.number;
  longitude : Js.number;
  isOnline : bool;
  signalStrength : Js.number;
  lastSeen : Z
}.

Record NetworkConnection := {
  conn_id : Z;
  fromNodeId : string;
  toNodeId : string;
  distance : Js.number;
  latency : Js.number;
  isActive : bool
}.

Record RoutingResult := {
  path : list string;
  totalDistance : Js.number;
  hops : Z
}.

(** ** The graph and its construction *)

Record NetworkGraph := {
  nodes : JsMap NetworkNode;
  adjacencyList : JsMap (JsMap Js.number)
}.

Definition calculateEdgeWeight (connection : NetworkConnection) : Js.number :=
  (distance connection * 10 + latency connection / 10)%float.

(** [adjacencyList.get(k)?.set(n, w)]: the inner map of [k] is updated in
    place when [k] is a key, and nothing happens otherwise. *)
Definition setNeighbor (k n : string) (w : Js.number)
    (adj : JsMap (JsMap Js.number)) : JsMap (JsMap Js.number) :=
  match map_get k adj with
  | Some m => map_set k (map_set n w m) adj
  | None => adj
  end.

(** Body of [nodes.forEach] in the constructor. *)
Definition addNode
    (st : JsMap NetworkNode * JsMap (JsMap Js.number)) (node : NetworkNode)
    : JsMap NetworkNode * JsMap (JsMap Js.number) :=
  (map_set (nodeId node) node (fst st), map_set (nodeId node) [] (snd st)).

(** Body of [connections.forEach] in the constructor. *)
Definition addConnection
    (adj : JsMap (JsMap Js.number)) (conn : NetworkConnection)
    : JsMap (JsMap Js.number) :=
  if isActive conn then
    let weight := calculateEdgeWeight conn in
    setNeighbor (toNodeId conn) (fromNodeId conn) weight
      (setNeighbor (fromNodeId conn) (toNodeId conn) weight adj)
  else adj.

Definition new_NetworkGraph
    (nodeList : list NetworkNode) (connections : list NetworkConnection)
    : NetworkGraph :=
  let st := fold_left addNode nodeList ([], []) in
  {| nodes := fst st;
     adjacencyList := fold_left addConnection connections (snd st) |}.

(** The weight stored for the directed entry [u -> v], if any. *)
Definition edgeWeight (g : NetworkGraph) (u v : string) : option Js.number :=
  match map_get u (adjacencyList g) with
  | Some m => map_get v m
  | None => None
  end.

Definition getConnectedNodes (g : NetworkGraph) (id : string) : list string :=
  match map_get id (adjacencyList g) with
  | Some neighbors => map_keys neighbors
  | None => []
  end.

(** ** Loops with fuel *)

Inductive Outcome (A : Type) : Type :=
| OutOfFuel : Outcome A
| Returned : A -> Outcome A.

Arguments OutOfFuel {A}.
Arguments Returned {A} _.

Definition bind {A B : Type} (m : Outcome A) (f : A -> Outcome B) : Outcome B :=
  match m with
  | OutOfFuel => OutOfFuel
  | Returned a => f a
  end.

Notation "x <- m ;; f" := (bind m (fun x => f))
  (at level 61, m at next level, right associativity).

(** ** Shortest path *)

Record SearchState := {
  distances : JsMap Js.number;
  previous : JsMap (option string);
  unvisited : JsSet
}.

(** Body of the initialisation loop over [this.nodes.keys()]. *)
Definition initNode (start : string) (st : SearchState) (id : string)
    : SearchState :=
  {| distances :=
       map_set id (if String.eqb id start then 0%float else Js.Infinity)
         (distances st);
     previous := map_set id None (previous st);
     unvisited := set_add id (unvisited st) |}.

Definition initSearch (g : NetworkGraph) (start : string) : SearchState :=
  fold_left (initNode start) (map_keys (nodes g))
    {| distances := []; previous := []; unvisited := [] |}.

(** Body of the loop that looks for the unvisited node of minimum distance;
    the accumulator is [(current, minDistance)]. *)
Definition selectStep (dist : JsMap Js.number)
    (acc : option string * Js.number) (id : string)
    : option string * Js.number :=
  let distance := Js.orElse (map_get id dist) Js.Infinity in
  if PrimFloat.ltb distance (snd acc) then (Some id, distance) else acc.

Definition selectMin (dist : JsMap Js.number) (unv : JsSet)
    : option string * Js.number :=
  fold_left (selectStep dist) unv (None, Js.Infinity).

(** Body of the loop over the neighbors of [current]. *)
Definition relaxNeighbor (current : string) (st : SearchState)
    (entry : string * Js.number) : SearchState :=
  let neighbor := fst entry in
  let weight := snd entry in
  if set_has neighbor (unvisited st) then
    let newDistance :=
      (Js.orElse (map_get current (distances st)) 0 + weight)%float in
    if PrimFloat.ltb newDistance
         (Js.orElse (map_get neighbor (distances st)) Js.Infinity)
    then {| distances := map_set neighbor newDistance (distances st);
            previous := map_set neighbor (Some current) (previous st);
            unvisited := unvisited st |}
    else st
  else st.

(** The [while (unvisited.size > 0)] loop; the result is the state at the
    loop's exit. *)
Fixpoint searchLoop (fuel : nat) (g : NetworkGraph) (dest : string)
    (st : SearchState) : Outcome SearchState :=
  match unvisited st with
  | [] => Returned st
  | _ :: _ =>
      match fuel with
      | O => OutOfFuel
      | S fuel' =>
          let sel := selectMin (distances st) (unvisited st) in
          let minDistance := snd sel in
          match fst sel with
          | None => Returned st
          | Some current =>
              if negb (Js.truthyStr current)
                 || PrimFloat.eqb minDistance Js.Infinity
              then Returned st
              else
                let st1 := {| distances := distances st;
                              previous := previous st;
                              unvisited := set_delete current (unvisited st) |} in
                if String.eqb current dest then Returned st1
                else
                  match map_get current (adjacencyList g) with
                  | Some neighbors =>
                      searchLoop fuel' g dest
                        (fold_left (relaxNeighbor current) neighbors st1)
                  | None => searchLoop fuel' g dest st1
                  end
          end
      end
  end.

(** The [while (current !== null)] loop that walks [previous] backwards,
    [path.unshift(current)] being a cons. *)
Fixpoint reconstruct (fuel : nat) (prev : JsMap (option string))
    (current : option string) (acc : list string) : Outcome (list string) :=
  match current with
  | None => Returned acc
  | Some c =>
      match fuel with
      | O => OutOfFuel
      | S fuel' =>
          reconstruct fuel' prev (Js.strOrNull (map_get c prev)) (c :: acc)
      end
  end.

Definition findShortestPath (g : NetworkGraph) (start dest : string)
    : Outcome (option RoutingResult) :=
  if negb (map_has start (nodes g)) || negb (map_has dest (nodes g)) then
    Returned None
  else if String.eqb start dest then
    Returned (Some {| path := [start]; totalDistance := 0%float; hops := 0%Z |})
  else
    let n := length (map_keys (nodes g)) in
    st <- searchLoop n g dest (initSearch g start) ;;
    p <- reconstruct (S n) (previous st) (Some dest) [] ;;
    match p with
    | first :: _ =>
        if negb (String.eqb first start) then Returned None
        else
          Returned (Some {| path := p;
                            totalDistance :=
                              Js.orElse (map_get dest (distances st)) 0%float;
                            hops := (Z.of_nat (length p) - 1)%Z |})
    | [] => Returned None
    end.

(** Body of the loop of [findAllPaths]. *)
Definition allPathsStep (g : NetworkGraph) (start : string)
    (acc : Outcome (JsMap RoutingResult)) (id : string)
    : Outcome (JsMap RoutingResult) :=
  results <- acc ;;
  if negb (String.eqb id start) then
    result <- findShortestPath g start id ;;
    match result with
    | Some r => Returned (map_set id r results)
    | None => Returned results
    end
  else Returned results.

Definition findAllPaths (g : NetworkGraph) (start : string)
    : Outcome (JsMap RoutingResult) :=
  fold_left (allPathsStep g start) (map_keys (nodes g)) (Returned []).

(** ** Broadcast *)

(** Body of the loop over the neighbors of the dequeued node. *)
Definition enqueueNeighbor (visited : JsSet) (queue : list string)
    (neighbor : string) : list string :=
  if negb (set_has neighbor visited) then queue ++ [neighbor] else queue.

(** The [while (queue.length > 0)] loop. *)
Fixpoint broadcastLoop (fuel : nat) (g : NetworkGraph) (visited : JsSet)
    (queue : list string) (broadcastOrder : list string)
    : Outcome (list string) :=
  match queue with
  | [] => Returned broadcastOrder
  | current :: rest =>
      match fuel with
      | O => OutOfFuel
      | S fuel' =>
          if set_has current visited then
            broadcastLoop fuel' g visited rest broadcastOrder
          else
            let visited' := set_add current visited in
            broadcastLoop fuel' g visited'
              (fold_left (enqueueNeighbor visited')
                 (getConnectedNodes g current) rest)
              (broadcastOrder ++ [current])
      end
  end.

(** Every dequeue was an enqueue, and a node enqueues its neighbors once:
    one more than the number of adjacency entries bounds the iterations. *)
Definition broadcastFuel (g : NetworkGraph) : nat :=
  S (fold_right (fun kv acc => length (snd kv) + acc) 0 (adjacencyList g)).

Definition broadcastPath (g : NetworkGraph) (start : string)
    : Outcome (list string) :=
  broadcastLoop (broadcastFuel g) g [] [start] [].

Definition calculateOptimalRoute (nodeList : list NetworkNode)
    (connections : list NetworkConnection) (from to : string)
    : Outcome (option RoutingResult) :=
  findShortestPath (new_NetworkGraph nodeList connections) from to.

Definition calculateBroadcastRoute (nodeList : list NetworkNode)
    (connections : list NetworkConnection) (from : string)
    : Outcome (list string) :=
  broadcastPath (new_NetworkGraph nodeList connections) from.

(** ** Sample data *)

Definition mkNode (id : string) : NetworkNode :=
  {| node_id := 0%Z; nodeId := id; name := id; latitude := 0%float;
     longitude := 0%float; isOnline := true; signalStrength := 100%float;
     lastSeen := 0%Z |}.

Definition mkConn (a b : string) (d l : Js.number) (active : bool)
    : NetworkConnection :=
  {| conn_id := 0%Z; fromNodeId := a; toNodeId := b; distance := d;
     latency := l; isActive := active |}.

Definition nodesABC : list NetworkNode :=
  [mkNode "A"%string; mkNode "B"%string; mkNode "C"%string].

Definition linksABC : list NetworkConnection :=
  [mkConn "A" "B" 1%float 10%float true; mkConn "B" "C" 1%float 10%float true].

Definition nodesAB : list NetworkNode :=
  [mkNode "A"%string; mkNode "B"%string].

Definition linkAB : list NetworkConnection :=
  [mkConn "A" "B" 1%float 10%float true].

(** Two active links between the same two nodes, with different weights. *)
Definition linksABtwice : list NetworkConnection :=
  [mkConn "A" "B" 1%float 10%float true; mkConn "A" "B" 2%float 20%float true].

(** A link whose [fromNodeId] is not a node. *)
Definition linksDangling : list NetworkConnection :=
  [mkConn "A" "B" 1%float 10%float true; mkConn "X" "B" 1%float 10%float true].

(** ** Observations used by the statements *)

(** The weight stored in an adjacency structure for the entry [u -> v]. *)
Definition adjWeight (adj : JsMap (JsMap Js.number)) (u v : string)
    : option Js.number :=
  match map_get u adj with
  | Some m => map_get v m
  | None => None
  end.

(** The connection joins the ids [u] and [v], in either direction. *)
Definition joins (c : NetworkConnection) (u v : string) : Prop :=
  (fromNodeId c = u /\ toNodeId c = v) \/ (fromNodeId c = v /\ toNodeId c = u).

(** [walk g s k x]: [x] is reached from [s] through [k] adjacency entries. *)
Inductive walk (g : NetworkGraph) (s : string) : nat -> string -> Prop :=
| walk_O : walk g s 0 s
| walk_S : forall k u v,
    walk g s k u -> In v (getConnectedNodes g u) -> walk g s (S k) v.

Definition reachable (g : NetworkGraph) (s x : string) : Prop :=
  exists k, walk g s k x.

(** The hop distance of [u] from [s] is at most that of [v]: whatever the
    length of a walk to [v], some walk to [u] is no longer. *)
Definition hop_le (g : NetworkGraph) (s u v : string) : Prop :=
  forall k, walk g s k v -> exists k', k' <= k /\ walk g s k' u.

(** What a correct breadth-first order from [s] is: it starts with [s],
    lists every reachable id once and nothing else, hop distance never
    decreases along it, and every id after the first has an earlier id
    whose neighbor list contains it. *)
Record BfsOrder (g : NetworkGraph) (s : string) (out : list string) : Prop := {
  bfs_first : hd_error out = Some s;
  bfs_nodup : NoDup out;
  bfs_reach : forall x, In x out <-> reachable g s x;
  bfs_layers : forall a u b v c,
      out = a ++ u :: b ++ v :: c -> hop_le g s u v;
  bfs_parent : forall a v c,
      out = a ++ v :: c -> a <> [] ->
      exists u, In u a /\ In v (getConnectedNodes g u)
}.

(** Invariant of the loop of [broadcastPath], in its phase [n]: the queue
    is [q1 ++ q2], where [q1] holds ids found at [n] hops and [q2] the ids
    enqueued while visiting them; [ord] is both [visited] and
    [broadcastOrder]. *)
Record BfsInv (g : NetworkGraph) (s : string) (n : nat)
    (q1 q2 ord : list string) : Prop := {
  inv_nodup : NoDup ord;
  inv_start : ord = [] -> q1 = [s] /\ q2 = [];
  inv_first : forall x t, ord = x :: t -> x = s;
  inv_near : forall v, In v ord -> exists k, k <= n /\ walk g s k v;
  inv_below : forall k v, k < n -> walk g s k v -> In v ord;
  inv_level : forall v, walk g s n v -> In v ord \/ In v q1;
  inv_closed : forall p y,
      In p ord -> In y (getConnectedNodes g p) ->
      In y ord \/ In y q1 \/ In y q2;
  inv_next : forall y, In y q2 -> walk g s (S n) y;
  inv_cur : forall x, In x q1 -> walk g s n x;
  inv_sorted : forall a v c,
      ord = a ++ v :: c -> forall u, In u a -> hop_le g s u v;
  inv_parent : forall a v c,
      ord = a ++ v :: c -> a <> [] ->
      exists u, In u a /\ In v (getConnectedNodes g u);
  inv_queue : forall y,
      In y (q1 ++ q2) ->
      ord = [] \/ exists u, In u ord /\ In y (getConnectedNodes g u)
}.

(** Adjacency entries of the keys not yet visited: with the queue length,
    what the loop of [broadcastPath] can still consume. *)
Definition pending (adj : JsMap (JsMap Js.number)) (visited : JsSet) : nat :=
  fold_right
    (fun kv acc => (if set_has (fst kv) visited then 0 else length (snd kv)) + acc)
    0 adj.

(** The weight of the link between [u] and [v] recomputed from the
    connection list: that of the last active connection joining them. *)
Definition joinsb (c : NetworkConnection) (u v : string) : bool :=
  (String.eqb (fromNodeId c) u && String.eqb (toNodeId c) v)
  || (String.eqb (fromNodeId c) v && String.eqb (toNodeId c) u).

Definition linkWeight (connections : list NetworkConnection) (u v : string)
    : option Js.number :=
  fold_left
    (fun acc c =>
       if isActive c && joinsb c u v
       then Some (distance c * 10 + latency c / 10)%float else acc)
    connections None.

(** The sum of the recomputed weights of the consecutive links of a path,
    accumulated from its first node on; [None] when two consecutive nodes
    have no active link. *)
Fixpoint pathCostFrom (connections : list NetworkConnection)
    (acc : Js.number) (p : list string) : option Js.number :=
  match p with
  | [] => Some acc
  | u :: rest =>
      match rest with
      | [] => Some acc
      | v :: _ =>
          match linkWeight connections u v with
          | Some w => pathCostFrom connections (acc + w)%float rest
          | None => None
          end
      end
  end.

Definition pathCost (connections : list NetworkConnection) (p : list string)
    : option Js.number :=
  pathCostFrom connections 0%float p.

(** The connection list with its [i]-th connection made inactive. *)
Definition setInactive (c : NetworkConnection) : NetworkConnection :=
  {| conn_id := conn_id c; fromNodeId := fromNodeId c;
     toNodeId := toNodeId c; distance := distance c; latency := latency c;
     isActive := false |}.

Fixpoint deactivate (i : nat) (l : list NetworkConnection)
    : list NetworkConnection :=
  match l with
  | [] => []
  | c :: rest =>
      match i with
      | O => setInactive c :: rest
      | S j => c :: deactivate j rest
      end
  end.

(** Decimal literals denote the nearest binary64 value, as they do in
    JavaScript. *)
Set Warnings "-inexact-float".

(** ** [Math.max] and [Math.min] *)

Module JsMath.

Definition isNaN (x : Js.number) : bool := negb (PrimFloat.eqb x x).

Definition isPosZero (x : Js.number) : bool :=
  match PrimFloat.classify x with
  | PZero => true
  | _ => false
  end.

Definition isNegZero (x : Js.number) : bool :=
  match PrimFloat.classify x with
  | NZero => true
  | _ => false
  end.

(** The loop of [Math.max] over its arguments: a [NaN] argument gives
    [NaN], [+0] replaces [-0], a greater argument replaces the highest. *)
Fixpoint maxFrom (highest : Js.number) (args : list Js.number) : Js.number :=
  match args with
  | [] => highest
  | n :: rest =>
      if isNaN n then nan
      else if isPosZero n && isNegZero highest then maxFrom n rest
      else if PrimFloat.ltb highest n then maxFrom n rest
      else maxFrom highest rest
  end.

Definition max (args : list Js.number) : Js.number :=
  maxFrom neg_infinity args.

Fixpoint minFrom (lowest : Js.number) (args : list Js.number) : Js.number :=
  match args with
  | [] => lowest
  | n :: rest =>
      if isNaN n then nan
      else if isNegZero n && isPosZero lowest then minFrom n rest
      else if PrimFloat.ltb n lowest then minFrom n rest
      else minFrom lowest rest
  end.

Definition min (args : list Js.number) : Js.number :=
  minFrom infinity args.

End JsMath.

(** ** Screen positions of nodes *)

Record Position := {
  pos_x : Js.number;
  pos_y : Js.number
}.

Module NetworkSimulation.

Definition getNodePosition (node : NetworkNode) : Position :=
  let baseLatitude := 12.9249%float in
  let baseLongitude := 77.4996%float in
  let x := ((longitude node - baseLongitude) * 50000 + 200)%float in
  let y := ((baseLatitude - latitude node) * 50000 + 200)%float in
  {| pos_x := JsMath.max [50%float; JsMath.min [350%float; x]];
     pos_y := JsMath.max [50%float; JsMath.min [350%float; y]] |}.

End NetworkSimulation.

Module Home.

Definition getNodePosition (node : NetworkNode) : Position :=
  let centerLat := 12.9249%float in
  let centerLon := 77.4996%float in
  let mapWidth := 800%float in
  let mapHeight := 400%float in
  let latRange := 0.02%float in
  let lonRange := 0.02%float in
  let x := (((longitude node - (centerLon - lonRange / 2)) / lonRange)
            * mapWidth)%float in
  let y := (((centerLat + latRange / 2 - latitude node) / latRange)
            * mapHeight)%float in
  {| pos_x := JsMath.max [60%float; JsMath.min [(mapWidth - 60)%float; x]];
     pos_y := JsMath.max [60%float; JsMath.min [(mapHeight - 60)%float; y]] |}.

End Home.

(** ** Messages *)

Module Msg.

Inductive MessageType : Type := normal | sos | system.

(** The message handed to the message store. *)
Record InsertMessage := {
  senderId : string;
  receiverId : option string;
  content : string;
  messageType : MessageType;
  routingPath : option (list string);
  hops : Z
}.

End Msg.

(** What the [mutationFn] of the messages view does: it throws, or it
    posts a message. *)
Inductive Sent : Type :=
| Thrown (message : string)
| Posted (body : Msg.InsertMessage).

Definition sendMessageMutation (nodeList : list NetworkNode)
    (connections : list NetworkConnection) (content : string)
    : Outcome Sent :=
  let onlineNodes :=
    filter (fun node =>
              isOnline node && negb (String.eqb (nodeId node) "user"))
           nodeList in
  match onlineNodes with
  | [] => Returned (Thrown "No online nodes available")
  | targetNode :: _ =>
      routingResult <-
        calculateOptimalRoute nodeList connections "user" (nodeId targetNode) ;;
      let routingPath :=
        match routingResult with
        | Some r => path r
        | None => ["user"%string; nodeId targetNode]
        end in
      Returned
        (Posted {| Msg.senderId := "user";
                   Msg.receiverId := Some (nodeId targetNode);
                   Msg.content := content;
                   Msg.messageType := Msg.normal;
                   Msg.routingPath := Some routingPath;
                   Msg.hops := (Z.of_nat (length routingPath) - 1)%Z |})
  end.

(** ** The SOS endpoint *)

Record Location := {
  loc_latitude : Js.number;
  loc_longitude : Js.number
}.

(** The response of the handler: status 500, or the recipient count and
    the messages. *)
Inductive SosResponse : Type :=
| SosFailed
| SosSent (recipientCount : nat) (messages : list Msg.InsertMessage).

(** All the callbacks of a [map] return, or one throws. *)
Fixpoint allReturned {A : Type} (l : list (option A)) : option (list A) :=
  match l with
  | [] => Some []
  | None :: _ => None
  | Some a :: rest =>
      match allReturned rest with
      | Some r => Some (a :: r)
      | None => None
      end
  end.

Section SosEndpoint.

(** The conversion of a number to a string in a template literal. *)
Variable numberToString : Js.number -> string.

(** [content || `SOS Alert from ...`]: reading [location.latitude] throws
    when [location] is missing, which happens only when the text is
    needed. *)
Definition sosContent (senderId : string) (location : option Location)
    (content : option string) : option string :=
  match content with
  | Some c =>
      if Js.truthyStr c then Some c
      else
        match location with
        | Some l =>
            Some ("SOS Alert from " ++ senderId ++ ". Location: "
                  ++ numberToString (loc_latitude l) ++ ", "
                  ++ numberToString (loc_longitude l))%string
        | None => None
        end
  | None =>
      match location with
      | Some l =>
          Some ("SOS Alert from " ++ senderId ++ ". Location: "
                ++ numberToString (loc_latitude l) ++ ", "
                ++ numberToString (loc_longitude l))%string
      | None => None
      end
  end.

(** The message created for one online node. *)
Definition sosMessage (senderId : string) (location : option Location)
    (content : option string) (node : NetworkNode)
    : option Msg.InsertMessage :=
  match sosContent senderId location content with
  | Some text =>
      Some {| Msg.senderId := senderId;
              Msg.receiverId := Some (nodeId node);
              Msg.content := text;
              Msg.messageType := Msg.sos;
              Msg.routingPath := Some [senderId; nodeId node];
              Msg.hops := 1%Z |}
  | None => None
  end.

(** What the handler of [POST /api/sos] answers for a sender id that is a
    string, over the nodes read from the store, when the calls of the store
    resolve; a call that rejects, which the handler also answers with
    status 500, is not part of this function. *)
Definition sosBroadcast (nodeList : list NetworkNode) (senderId : string)
    (location : option Location) (content : option string) : SosResponse :=
  let onlineNodes :=
    filter (fun node =>
              isOnline node && negb (String.eqb (nodeId node) senderId))
           nodeList in
  match allReturned (map (sosMessage senderId location content) onlineNodes) with
  | Some sosMessages => SosSent (length onlineNodes) sosMessages
  | None => SosFailed
  end.

End SosEndpoint.

(** Shape of an adjacency structure: its keys and, for each, the neighbor
    ids, without the weights. *)
Definition sameLinks (c c' : NetworkConnection) : Prop :=
  fromNodeId c = fromNodeId c' /\ toNodeId c = toNodeId c'
  /\ isActive c = isActive c'.

Definition sameShape (adj adj' : JsMap (JsMap Js.number)) : Prop :=
  Forall2 (fun kv kv' => fst kv = fst kv'
                         /\ map_keys (snd kv) = map_keys (snd kv'))
          adj adj'.

(** Side conditions on the two constants of a clamp
    [Math.max(lo, Math.min(hi, x))]: numbers other than zero, finite, in
    order. *)
Definition clampBounds (lo hi : Js.number) : bool :=
  negb (JsMath.isNaN lo) && negb (JsMath.isNaN hi)
  && negb (JsMath.isPosZero lo) && negb (JsMath.isNegZero lo)
  && negb (JsMath.isPosZero hi) && negb (JsMath.isNegZero hi)
  && PrimFloat.ltb neg_infinity lo && PrimFloat.ltb hi infinity
  && PrimFloat.ltb lo hi && PrimFloat.leb lo lo && PrimFloat.leb hi hi.

(** The node the messages view sends to, and the node the SOS endpoint
    sends to. *)
Definition isSendTarget (node : NetworkNode) : bool :=
  isOnline node && negb (String.eqb (nodeId node) "user").

Definition isSosRecipient (senderId : string) (node : NetworkNode) : bool :=
  isOnline node && negb (String.eqb (nodeId node) senderId).

(** ** The search from a given state *)

(** [findShortestPath] after its guards and its initialisation: the search
    loop from the state [st0], the walk back along [previous] and the
    assembly of the result. *)
Definition routeFromState (g : NetworkGraph) (start dest : string)
    (st0 : SearchState) : Outcome (option RoutingResult) :=
  let n := length (map_keys (nodes g)) in
  st <- searchLoop n g dest st0 ;;
  p <- reconstruct (S n) (previous st) (Some dest) [] ;;
  match p with
  | first :: _ =>
      if negb (String.eqb first start) then Returned None
      else
        Returned (Some {| path := p;
                          totalDistance :=
                            Js.orElse (map_get dest (distances st)) 0%float;
                          hops := (Z.of_nat (length p) - 1)%Z |})
  | [] => Returned None
  end.

(** [previous.get(v) || null] in a state. *)
Definition readPrevious (st : SearchState) (v : string) : option string :=
  Js.strOrNull (map_get v (previous st)).

(** Bookkeeping of a search state [st] reached from [st0]: a recorded
    predecessor [u] of [v] is settled, has an entry to [v], and the distance
    of [v] is the distance read for [u] plus the weight of that entry; a
    node without predecessor has the distance it had in [st0]. *)
Record Booked (g : NetworkGraph) (st0 st : SearchState) : Prop := {
  booked_previous : forall v u,
      readPrevious st v = Some u ->
      ~ In u (unvisited st) /\
      exists w, edgeWeight g u v = Some w /\
                map_get v (distances st)
                = Some (Js.orElse (map_get u (distances st)) 0 + w)%float;
  booked_initial : forall v,
      readPrevious st v = None ->
      map_get v (distances st) = map_get v (distances st0)
}.

(** Each node of the list is the recorded predecessor of the next. *)
Fixpoint IsChain (st : SearchState) (p : list string) : Prop :=
  match p with
  | [] => True
  | u :: rest =>
      match rest with
      | [] => True
      | v :: _ => readPrevious st v = Some u /\ IsChain st rest
      end
  end.

(** The costs accumulated after each link of a path, from [acc] on, with
    the weights recomputed from the connection list. *)
Fixpoint partialCosts (connections : list NetworkConnection)
    (acc : Js.number) (p : list string) : list Js.number :=
  match p with
  | [] => []
  | u :: rest =>
      match rest with
      | [] => []
      | v :: _ =>
          match linkWeight connections u v with
          | Some w =>
              (acc + w)%float :: partialCosts connections (acc + w)%float rest
          | None => []
          end
      end
  end.

(** ** The loop of [findAllPaths] over any route function *)

(** [allPathsStep] and [findAllPaths] with the call of
    [this.findShortestPath(start, nodeId)] replaced by [route nodeId]. *)
Definition allPathsStepWith (route : string -> Outcome (option RoutingResult))
    (start : string) (acc : Outcome (JsMap RoutingResult)) (id : string)
    : Outcome (JsMap RoutingResult) :=
  results <- acc ;;
  if negb (String.eqb id start) then
    result <- route id ;;
    match result with
    | Some r => Returned (map_set id r results)
    | None => Returned results
    end
  else Returned results.

Definition findAllPathsWith (route : string -> Outcome (option RoutingResult))
    (keys : list string) (start : string) : Outcome (JsMap RoutingResult) :=
  fold_left (allPathsStepWith route start) keys (Returned []).

(** ** Maps and sets *)

Section JsMapFacts.

Context {V : Type}.
Implicit Types (m : JsMap V) (k : string) (v : V).

Lemma map_get_set_same k v m : map_get k (map_set k v m) = Some v.
Proof.
  induction m as [|[k' v'] m IH]; simpl.
  - now rewrite String.eqb_refl.
  - destruct (String.eqb k k') eqn:E; simpl.
    + now rewrite String.eqb_refl.
    + now rewrite E.
Qed.

Lemma map_get_set_other k k' v m :
  k' <> k -> map_get k' (map_set k v m) = map_get k' m.
Proof.
  intros Hne. apply String.eqb_neq in Hne.
  induction m as [|[k0 v0] m IH]; simpl.
  - now rewrite Hne.
  - destruct (String.eqb k k0) eqn:E; simpl.
    + apply String.eqb_eq in E. subst k0. now rewrite Hne.
    + now rewrite IH.
Qed.

Lemma map_has_set k k' v m :
  map_has k' (map_set k v m) = String.eqb k' k || map_has k' m.
Proof.
  unfold map_has. destruct (String.eqb k' k) eqn:E; simpl.
  - apply String.eqb_eq in E. subst. now rewrite map_get_set_same.
  - apply String.eqb_neq in E. now rewrite map_get_set_other.
Qed.

Lemma map_has_keys k m : map_has k m = true <-> In k (map_keys m).
Proof.
  unfold map_has. induction m as [|[k' v'] m IH]; simpl.
  - split; [discriminate | tauto].
  - destruct (String.eqb k k') eqn:E.
    + apply String.eqb_eq in E. subst. tauto.
    + apply String.eqb_neq in E. rewrite IH. split; [tauto|].
      intros [H|H]; [congruence | exact H].
Qed.

Lemma map_get_keys k m : map_get k m <> None <-> In k (map_keys m).
Proof.
  rewrite <- map_has_keys. unfold map_has.
  destruct (map_get k m); split; congruence.
Qed.

Lemma map_get_Forall (P : V -> Prop) k v m :
  Forall (fun kv => P (snd kv)) m -> map_get k m = Some v -> P v.
Proof.
  induction 1 as [|[k' v'] m Hx _ IH]; simpl; [discriminate|].
  destruct (String.eqb k k'); [|exact IH].
  intros [= <-]. exact Hx.
Qed.

Lemma map_set_Forall (P : V -> Prop) k v m :
  Forall (fun kv => P (snd kv)) m -> P v ->
  Forall (fun kv => P (snd kv)) (map_set k v m).
Proof.
  intros Hm Hv. induction Hm as [|[k' v'] m Hx Hm IH]; simpl.
  - constructor; [exact Hv | constructor].
  - destruct (String.eqb k k'); constructor; auto.
Qed.

End JsMapFacts.

Lemma set_has_In k (s : JsSet) : set_has k s = true <-> In k s.
Proof.
  unfold set_has. rewrite existsb_exists. split.
  - intros [x [Hx E]]. apply String.eqb_eq in E. now subst.
  - intros H. exists k. split; [exact H | apply String.eqb_refl].
Qed.

Lemma set_has_false k (s : JsSet) : set_has k s = false <-> ~ In k s.
Proof.
  rewrite <- set_has_In. destruct (set_has k s); split; congruence.
Qed.

Lemma set_add_fresh k (s : JsSet) : set_has k s = false -> set_add k s = s ++ [k].
Proof. unfold set_add. now intros ->. Qed.

(** ** Construction of the adjacency structure *)

Section Construction.

Implicit Types (adj : JsMap (JsMap Js.number)) (c : NetworkConnection).

Lemma joins_sym c u v : joins c u v -> joins c v u.
Proof. unfold joins. tauto. Qed.

Lemma setNeighbor_has k n w adj u :
  map_has u (setNeighbor k n w adj) = map_has u adj.
Proof.
  unfold setNeighbor. destruct (map_get k adj) eqn:E; [|reflexivity].
  rewrite map_has_set. destruct (String.eqb u k) eqn:Eu; [|reflexivity].
  apply String.eqb_eq in Eu. subst. unfold map_has. now rewrite E.
Qed.

Lemma setNeighbor_weight k n w adj u v :
  adjWeight (setNeighbor k n w adj) u v =
  if String.eqb u k && String.eqb v n && map_has k adj then Some w
  else adjWeight adj u v.
Proof.
  unfold setNeighbor, adjWeight, map_has.
  destruct (map_get k adj) as [m|] eqn:E.
  - destruct (String.eqb u k) eqn:Eu; simpl.
    + apply String.eqb_eq in Eu. subst u. rewrite map_get_set_same, E.
      destruct (String.eqb v n) eqn:Ev; simpl.
      * apply String.eqb_eq in Ev. subst. apply map_get_set_same.
      * apply String.eqb_neq in Ev. now apply map_get_set_other.
    + apply String.eqb_neq in Eu. now rewrite map_get_set_other.
  - now rewrite andb_false_r.
Qed.

Lemma addConnection_has adj c u :
  map_has u (addConnection adj c) = map_has u adj.
Proof.
  unfold addConnection. destruct (isActive c); [|reflexivity].
  now rewrite !setNeighbor_has.
Qed.

Lemma addConnection_weight adj c u v :
  adjWeight (addConnection adj c) u v =
  if isActive c then
    if String.eqb u (toNodeId c) && String.eqb v (fromNodeId c)
       && map_has (toNodeId c) adj
    then Some (calculateEdgeWeight c)
    else if String.eqb u (fromNodeId c) && String.eqb v (toNodeId c)
            && map_has (fromNodeId c) adj
    then Some (calculateEdgeWeight c)
    else adjWeight adj u v
  else adjWeight adj u v.
Proof.
  unfold addConnection. destruct (isActive c); [|reflexivity].
  now rewrite !setNeighbor_weight, setNeighbor_has.
Qed.

Lemma connections_has l : forall adj u,
  map_has u (fold_left addConnection l adj) = map_has u adj.
Proof.
  induction l as [|c l IH]; intros; simpl; [reflexivity|].
  now rewrite IH, addConnection_has.
Qed.

(** Connections that do not join [u] and [v] leave the entry alone. *)
Lemma connections_keep l : forall adj u v,
  (forall c, In c l -> isActive c = true -> ~ joins c u v) ->
  adjWeight (fold_left addConnection l adj) u v = adjWeight adj u v.
Proof.
  induction l as [|c l IH]; intros adj u v H; simpl; [reflexivity|].
  rewrite IH by (intros; apply H; simpl; auto).
  rewrite addConnection_weight.
  destruct (isActive c) eqn:Ea; [|reflexivity].
  assert (Hc : ~ joins c u v) by (apply H; simpl; auto).
  destruct (String.eqb u (toNodeId c)) eqn:E1,
           (String.eqb v (fromNodeId c)) eqn:E2; simpl;
    try (apply String.eqb_eq in E1); try (apply String.eqb_eq in E2);
    try (exfalso; apply Hc; right; split; congruence).
  all: destruct (String.eqb u (fromNodeId c)) eqn:E3,
                (String.eqb v (toNodeId c)) eqn:E4; simpl;
    try reflexivity;
    apply String.eqb_eq in E3; apply String.eqb_eq in E4;
    exfalso; apply Hc; left; split; congruence.
Qed.

(** An entry, once present, stays (its weight may be replaced). *)
Lemma connections_persist l : forall adj u v,
  adjWeight adj u v <> None ->
  adjWeight (fold_left addConnection l adj) u v <> None.
Proof.
  induction l as [|c l IH]; intros adj u v H; simpl; [exact H|].
  apply IH. rewrite addConnection_weight.
  destruct (isActive c); [|exact H].
  repeat match goal with |- context [if ?b then _ else _] =>
    destruct b end; congruence.
Qed.

(** Every entry comes from an active connection joining its two ids. *)
Lemma connections_origin l : forall adj u v w,
  adjWeight (fold_left addConnection l adj) u v = Some w ->
  adjWeight adj u v = Some w \/
  exists c, In c l /\ isActive c = true /\ joins c u v
            /\ w = calculateEdgeWeight c.
Proof.
  induction l as [|c l IH]; intros adj u v w H; simpl in *; [now left|].
  destruct (IH _ _ _ _ H) as [H1 | [c' [Hin Hc']]].
  - rewrite addConnection_weight in H1.
    destruct (isActive c) eqn:Ea; [|now left].
    destruct (String.eqb u (toNodeId c) && String.eqb v (fromNodeId c)
              && map_has (toNodeId c) adj) eqn:E1.
    + apply andb_prop in E1. destruct E1 as [E1 _].
      apply andb_prop in E1. destruct E1 as [Eu Ev].
      apply String.eqb_eq in Eu. apply String.eqb_eq in Ev.
      right. exists c. repeat split; auto; [right; split|]; congruence.
    + destruct (String.eqb u (fromNodeId c) && String.eqb v (toNodeId c)
                && map_has (fromNodeId c) adj) eqn:E2; [|now left].
      apply andb_prop in E2. destruct E2 as [E2 _].
      apply andb_prop in E2. destruct E2 as [Eu Ev].
      apply String.eqb_eq in Eu. apply String.eqb_eq in Ev.
      right. exists c. repeat split; auto; [left; split|]; congruence.
  - right. exists c'. tauto.
Qed.

(** When both ends of every connection are keys, the structure stays
    symmetric. *)
Lemma connections_symmetric l : forall adj,
  (forall c, In c l ->
     map_has (fromNodeId c) adj = true /\ map_has (toNodeId c) adj = true) ->
  (forall u v, adjWeight adj u v = adjWeight adj v u) ->
  forall u v,
    adjWeight (fold_left addConnection l adj) u v =
    adjWeight (fold_left addConnection l adj) v u.
Proof.
  induction l as [|c l IH]; intros adj Hk Hs; simpl; [exact Hs|].
  apply IH.
  - intros c' Hc'. rewrite !addConnection_has. apply Hk. simpl. auto.
  - intros u v. rewrite !addConnection_weight.
    destruct (isActive c); [|apply Hs].
    destruct (Hk c (or_introl eq_refl)) as [-> ->].
    rewrite !andb_true_r, (Hs u v).
    destruct (String.eqb u (toNodeId c)), (String.eqb v (fromNodeId c)),
             (String.eqb u (fromNodeId c)), (String.eqb v (toNodeId c));
      reflexivity.
Qed.

Implicit Types (st : JsMap NetworkNode * JsMap (JsMap Js.number)).

Lemma nodes_has_adj l : forall st k,
  map_has k (snd (fold_left addNode l st)) =
  set_has k (map nodeId l) || map_has k (snd st).
Proof.
  induction l as [|n l IH]; intros st k; simpl; [reflexivity|].
  rewrite IH. unfold addNode, set_has. simpl. rewrite map_has_set.
  destruct (String.eqb k (nodeId n)), (existsb (String.eqb k) (map nodeId l));
    reflexivity.
Qed.

Lemma nodes_has_nodes l : forall st k,
  map_has k (fst (fold_left addNode l st)) =
  set_has k (map nodeId l) || map_has k (fst st).
Proof.
  induction l as [|n l IH]; intros st k; simpl; [reflexivity|].
  rewrite IH. unfold addNode, set_has. simpl. rewrite map_has_set.
  destruct (String.eqb k (nodeId n)), (existsb (String.eqb k) (map nodeId l));
    reflexivity.
Qed.

Lemma nodes_empty_adj l : forall st,
  Forall (fun kv => snd kv = []) (snd st) ->
  Forall (fun kv => snd kv = []) (snd (fold_left addNode l st)).
Proof.
  induction l as [|n l IH]; intros st H; simpl; [exact H|].
  apply IH. unfold addNode. simpl.
  now apply (map_set_Forall (fun m : JsMap Js.number => m = [])).
Qed.

Lemma initial_weight l u v :
  adjWeight (snd (fold_left addNode l ([], []))) u v = None.
Proof.
  unfold adjWeight.
  destruct (map_get u (snd (fold_left addNode l ([], [])))) as [m|] eqn:E;
    [|reflexivity].
  apply (map_get_Forall (fun m : JsMap Js.number => m = [])) in E.
  - now subst.
  - apply nodes_empty_adj. constructor.
Qed.

Lemma graph_has_node nodeList connections k :
  map_has k (nodes (new_NetworkGraph nodeList connections)) = true <->
  In k (map nodeId nodeList).
Proof.
  unfold new_NetworkGraph. simpl. rewrite nodes_has_nodes. simpl.
  rewrite orb_false_r. apply set_has_In.
Qed.

Lemma graph_has_key nodeList connections k :
  map_has k (adjacencyList (new_NetworkGraph nodeList connections)) = true <->
  In k (map nodeId nodeList).
Proof.
  unfold new_NetworkGraph. simpl. rewrite connections_has, nodes_has_adj.
  simpl. rewrite orb_false_r. apply set_has_In.
Qed.

Lemma connected_iff_weight g u v :
  In v (getConnectedNodes g u) <-> edgeWeight g u v <> None.
Proof.
  unfold getConnectedNodes, edgeWeight.
  destruct (map_get u (adjacencyList g)).
  - symmetry. apply map_get_keys.
  - simpl. split; [tauto | congruence].
Qed.

(** An active connection whose end [a] is a node leaves an entry from [a]
    to the other end [b]. *)
Lemma active_connection_entry nodeList connections c a b :
  In c connections -> isActive c = true -> joins c a b ->
  In a (map nodeId nodeList) ->
  edgeWeight (new_NetworkGraph nodeList connections) a b <> None.
Proof.
  intros Hin Ha Hj Hnode.
  apply in_split in Hin. destruct Hin as [pre [post ->]].
  unfold edgeWeight, new_NetworkGraph. simpl.
  fold (adjWeight
          (fold_left addConnection (pre ++ c :: post)
             (snd (fold_left addNode nodeList ([], [])))) a b).
  rewrite fold_left_app. simpl. apply connections_persist.
  rewrite addConnection_weight, Ha.
  assert (Hk : map_has a (fold_left addConnection pre
                 (snd (fold_left addNode nodeList ([], [])))) = true).
  { rewrite connections_has, nodes_has_adj. simpl. rewrite orb_false_r.
    now apply set_has_In. }
  destruct Hj as [[<- <-] | [<- <-]]; rewrite Hk, !String.eqb_refl; simpl.
  - destruct (_ && _); discriminate.
  - discriminate.
Qed.

End Construction.

(** ** The search of [findShortestPath] *)

Section Search.

Variable g : NetworkGraph.
Variable start : string.

(** After initialisation every tentative distance is [0] or [Infinity]. *)
Lemma init_distances l : forall st,
  Forall (fun kv => snd kv = 0%float \/ snd kv = Js.Infinity) (distances st) ->
  Forall (fun kv => snd kv = 0%float \/ snd kv = Js.Infinity)
    (distances (fold_left (initNode start) l st)).
Proof.
  induction l as [|id l IH]; intros st H; simpl; [exact H|].
  apply IH. simpl.
  apply (map_set_Forall (fun x => x = 0%float \/ x = Js.Infinity)); [exact H|].
  destruct (String.eqb id start); auto.
Qed.

Lemma init_previous l : forall st,
  Forall (fun kv => snd kv = None) (previous st) ->
  Forall (fun kv => snd kv = None)
    (previous (fold_left (initNode start) l st)).
Proof.
  induction l as [|id l IH]; intros st H; simpl; [exact H|].
  apply IH. simpl.
  now apply (map_set_Forall (fun x : option string => x = None)).
Qed.

(** [distances.get(id) || Infinity] reads [Infinity] for every id: the
    start's [0] is falsy and is replaced like a missing entry. *)
Lemma init_reads_infinity id :
  Js.orElse (map_get id (distances (initSearch g start))) Js.Infinity
  = Js.Infinity.
Proof.
  destruct (map_get id (distances (initSearch g start))) as [x|] eqn:E;
    [|reflexivity].
  apply (map_get_Forall (fun x => x = 0%float \/ x = Js.Infinity)) in E.
  - destruct E as [-> | ->]; reflexivity.
  - apply init_distances. constructor.
Qed.

Lemma init_no_previous id :
  Js.strOrNull (map_get id (previous (initSearch g start))) = None.
Proof.
  destruct (map_get id (previous (initSearch g start))) as [x|] eqn:E;
    [|reflexivity].
  apply (map_get_Forall (fun x : option string => x = None)) in E.
  - now subst.
  - apply init_previous. constructor.
Qed.

Lemma selectMin_none dist unv :
  (forall id, Js.orElse (map_get id dist) Js.Infinity = Js.Infinity) ->
  selectMin dist unv = (None, Js.Infinity).
Proof.
  intros H. unfold selectMin. induction unv as [|id unv IH]; [reflexivity|].
  simpl. unfold selectStep at 2. rewrite H. exact IH.
Qed.

(** The loop leaves at its first iteration, with the state it entered. *)
Lemma searchLoop_exits fuel dest st :
  (forall id, Js.orElse (map_get id (distances st)) Js.Infinity
              = Js.Infinity) ->
  fuel <> 0 \/ unvisited st = [] ->
  searchLoop fuel g dest st = Returned st.
Proof.
  intros H Hf. destruct fuel as [|fuel]; simpl.
  - destruct Hf as [Hf | ->]; [congruence | reflexivity].
  - destruct (unvisited st) eqn:E; [reflexivity|].
    now rewrite selectMin_none.
Qed.

Lemma init_unvisited_nil :
  map_keys (nodes g) = [] -> unvisited (initSearch g start) = [].
Proof. unfold initSearch. now intros ->. Qed.

(** What [findShortestPath] returns, on every input. *)
Lemma findShortestPath_value dest :
  findShortestPath g start dest =
  Returned
    (if map_has start (nodes g) && map_has dest (nodes g) then
       if String.eqb start dest then
         Some {| path := [start]; totalDistance := 0%float; hops := 0%Z |}
       else None
     else None).
Proof.
  unfold findShortestPath.
  destruct (map_has start (nodes g)), (map_has dest (nodes g));
    simpl; try reflexivity.
  destruct (String.eqb start dest) eqn:E; [reflexivity|].
  rewrite searchLoop_exits.
  - simpl. rewrite init_no_previous.
    destruct (length (map_keys (nodes g))); simpl;
      now rewrite String.eqb_sym, E.
  - apply init_reads_infinity.
  - destruct (map_keys (nodes g)) eqn:Ek; simpl.
    + right. now apply init_unvisited_nil.
    + left. discriminate.
Qed.

Lemma findShortestPath_distinct dest :
  start <> dest -> findShortestPath g start dest = Returned None.
Proof.
  intros H. apply String.eqb_neq in H.
  rewrite findShortestPath_value, H.
  now destruct (_ && _).
Qed.

End Search.

(** ** The traversal of [broadcastPath] *)

Lemma snoc_split (A : Type) (l a c : list A) (x v : A) :
  l ++ [x] = a ++ v :: c ->
  (c = [] /\ a = l /\ v = x) \/ (exists c', c = c' ++ [x] /\ l = a ++ v :: c').
Proof.
  destruct c as [|z c] using rev_ind; intros H.
  - apply app_inj_tail in H. destruct H as [-> ->]. now left.
  - clear IHc. right. exists c.
    change (l ++ [x] = a ++ (v :: c) ++ [z]) in H.
    rewrite app_assoc in H. apply app_inj_tail in H.
    destruct H as [-> ->]. split; reflexivity.
Qed.

Lemma nodup_snoc (A : Type) (l : list A) (x : A) :
  NoDup l -> ~ In x l -> NoDup (l ++ [x]).
Proof.
  intros Hl Hx. apply NoDup_app; [exact Hl | repeat constructor; auto |].
  intros a Ha [<- | []]. now apply Hx.
Qed.

Lemma enqueue_filter visited l : forall q,
  fold_left (enqueueNeighbor visited) l q =
  q ++ filter (fun y => negb (set_has y visited)) l.
Proof.
  induction l as [|a l IH]; intros q; simpl.
  - now rewrite app_nil_r.
  - rewrite IH. unfold enqueueNeighbor.
    destruct (negb (set_has a visited)); simpl; [|reflexivity].
    now rewrite <- app_assoc.
Qed.

Section Broadcast.

Variable g : NetworkGraph.
Variable s : string.

Lemma inv_init : BfsInv g s 0 [s] [] [].
Proof.
  constructor.
  - constructor.
  - intros _. split; reflexivity.
  - intros x t E. discriminate.
  - intros v [].
  - intros k v Hk. lia.
  - intros v Hv. inversion Hv. right. now left.
  - intros p y [].
  - intros y [].
  - intros x [<- | []]. constructor.
  - intros [|? ?] v c E; discriminate.
  - intros [|? ?] v c E; discriminate.
  - intros y _. now left.
Qed.

(** When the ids found at [n] hops are used up, those enqueued while
    visiting them are the ids found at [n + 1] hops. *)
Lemma inv_switch n q2 ord :
  BfsInv g s n [] q2 ord -> BfsInv g s (S n) q2 [] ord.
Proof.
  intros H.
  assert (Hbelow : forall k v, k < S n -> walk g s k v -> In v ord).
  { intros k v Hk Hw. destruct (Nat.eq_dec k n) as [-> | Hne].
    - destruct (inv_level H Hw) as [Hv | []]. exact Hv.
    - apply (inv_below H) with k; [lia | exact Hw]. }
  constructor.
  - exact (inv_nodup H).
  - intros E. destruct (inv_start H E) as [E' _]. discriminate.
  - exact (inv_first H).
  - intros v Hv. destruct (inv_near H _ Hv) as [k [Hk Hw]].
    exists k. split; [lia | exact Hw].
  - exact Hbelow.
  - intros v Hw. inversion Hw as [|k u v' Hu Hin]; subst.
    assert (Hord : In u ord) by (apply Hbelow with n; [lia | exact Hu]).
    destruct (inv_closed H _ _ Hord Hin) as [Hy | [[] | Hy]]; auto.
  - intros p y Hp Hy.
    destruct (inv_closed H _ _ Hp Hy) as [Hy' | [[] | Hy']]; auto.
  - intros y [].
  - exact (inv_next H).
  - exact (inv_sorted H).
  - exact (inv_parent H).
  - intros y Hy. apply (inv_queue H). rewrite app_nil_r in Hy. exact Hy.
Qed.

(** Dequeuing an id that is already visited. *)
Lemma inv_skip n x q1 q2 ord :
  BfsInv g s n (x :: q1) q2 ord -> In x ord -> BfsInv g s n q1 q2 ord.
Proof.
  intros H Hx. constructor.
  - exact (inv_nodup H).
  - intros ->. destruct Hx.
  - exact (inv_first H).
  - exact (inv_near H).
  - exact (inv_below H).
  - intros v Hw. destruct (inv_level H Hw) as [Hv | [<- | Hv]]; auto.
  - intros p y Hp Hy.
    destruct (inv_closed H _ _ Hp Hy) as [Hy' | [[<- | Hy'] | Hy']]; auto.
  - exact (inv_next H).
  - intros y Hy. apply (inv_cur H). now right.
  - exact (inv_sorted H).
  - exact (inv_parent H).
  - intros y Hy. apply (inv_queue H). simpl. now right.
Qed.

(** Dequeuing an id that is not visited yet: it is appended to the order
    and its unvisited neighbors go to the back of the queue. *)
Lemma inv_visit n x q1 q2 ord :
  BfsInv g s n (x :: q1) q2 ord -> ~ In x ord ->
  BfsInv g s n q1
    (q2 ++ filter (fun y => negb (set_has y (ord ++ [x])))
                  (getConnectedNodes g x))
    (ord ++ [x]).
Proof.
  intros H Hx.
  assert (Hwx : walk g s n x) by (apply (inv_cur H); now left).
  constructor.
  - apply nodup_snoc; [exact (inv_nodup H) | exact Hx].
  - intros E. apply app_eq_nil in E. destruct E as [_ E]. discriminate.
  - intros x0 t E. destruct ord as [|o r].
    + destruct (inv_start H eq_refl) as [E' _].
      simpl in E. congruence.
    + simpl in E. injection E as <- _. now apply (inv_first H) with r.
  - intros v Hv. apply in_app_or in Hv. destruct Hv as [Hv | [<- | []]].
    + exact (inv_near H _ Hv).
    + exists n. split; [lia | exact Hwx].
  - intros k v Hk Hw. apply in_or_app. left. exact (inv_below H Hk Hw).
  - intros v Hw. destruct (inv_level H Hw) as [Hv | [<- | Hv]].
    + left. apply in_or_app. now left.
    + left. apply in_or_app. right. now left.
    + now right.
  - intros p y Hp Hy. apply in_app_or in Hp. destruct Hp as [Hp | [<- | []]].
    + destruct (inv_closed H _ _ Hp Hy) as [Hy' | [[<- | Hy'] | Hy']].
      * left. apply in_or_app. now left.
      * left. apply in_or_app. right. now left.
      * right. now left.
      * right. right. apply in_or_app. now left.
    + destruct (set_has y (ord ++ [x])) eqn:E.
      * left. now apply set_has_In.
      * right. right. apply in_or_app. right. apply filter_In.
        split; [exact Hy | now rewrite E].
  - intros y Hy. apply in_app_or in Hy. destruct Hy as [Hy | Hy].
    + exact (inv_next H _ Hy).
    + apply filter_In in Hy. destruct Hy as [Hy _].
      now apply walk_S with x.
  - intros y Hy. apply (inv_cur H). now right.
  - intros a v c E u Hu. apply snoc_split in E.
    destruct E as [[-> [-> ->]] | [c' [-> E]]].
    + destruct (inv_near H _ Hu) as [k0 [Hk0 Hw0]].
      intros k Hk. exists k0. split; [|exact Hw0].
      destruct (le_lt_dec n k) as [Hle | Hlt]; [lia|].
      exfalso. apply Hx. exact (inv_below H Hlt Hk).
    + exact (inv_sorted H _ _ E _ Hu).
  - intros a v c E Ha. apply snoc_split in E.
    destruct E as [[-> [-> ->]] | [c' [-> E]]].
    + destruct (inv_queue H x) as [E | Hu]; [now left | congruence | exact Hu].
    + exact (inv_parent H _ _ E Ha).
  - intros y Hy. right.
    assert (Hold : In y (q1 ++ q2) ->
                   exists u, In u (ord ++ [x]) /\ In y (getConnectedNodes g u)).
    { intros Hq. destruct (inv_queue H y) as [E | [u [Hu Hyu]]].
      - simpl. now right.
      - destruct (inv_start H E) as [E1 ->]. injection E1 as _ ->.
        destruct Hq.
      - exists u. split; [apply in_or_app; now left | exact Hyu]. }
    apply in_app_or in Hy. destruct Hy as [Hy | Hy].
    + apply Hold. apply in_or_app. now left.
    + apply in_app_or in Hy. destruct Hy as [Hy | Hy].
      * apply Hold. apply in_or_app. now right.
      * apply filter_In in Hy. destruct Hy as [Hy _].
        exists x. split; [apply in_or_app; right; now left | exact Hy].
Qed.

(** With the queue empty the order is a breadth-first order. *)
Lemma inv_final n ord : BfsInv g s n [] [] ord -> BfsOrder g s ord.
Proof.
  intros H.
  assert (Hfirst : hd_error ord = Some s).
  { destruct ord as [|x t].
    - destruct (inv_start H eq_refl) as [E _]. discriminate.
    - simpl. f_equal. now apply (inv_first H) with t. }
  constructor.
  - exact Hfirst.
  - exact (inv_nodup H).
  - intros x. split.
    + intros Hx. destruct (inv_near H _ Hx) as [k [_ Hw]]. now exists k.
    + intros [k Hw]. induction Hw as [|k u v Hu IH Hin].
      * destruct ord as [|x t]; [discriminate|].
        injection Hfirst as ->. now left.
      * destruct (inv_closed H _ _ IH Hin) as [Hv | [[] | []]]. exact Hv.
  - intros a u b v c E. apply (inv_sorted H) with (a := a ++ u :: b) (c := c).
    + rewrite E, <- app_assoc. reflexivity.
    + apply in_elt.
  - exact (inv_parent H).
Qed.

(** Whatever the loop returns from a state of the invariant is a
    breadth-first order. *)
Lemma broadcastLoop_order fuel : forall n q1 q2 ord out,
  BfsInv g s n q1 q2 ord ->
  broadcastLoop fuel g ord (q1 ++ q2) ord = Returned out ->
  BfsOrder g s out.
Proof.
  induction fuel as [|fuel IH]; intros n q1 q2 ord out H Hrun.
  - simpl in Hrun. destruct (q1 ++ q2) eqn:E; [|discriminate].
    injection Hrun as <-. apply app_eq_nil in E. destruct E as [-> ->].
    exact (inv_final H).
  - assert (Hn : exists n' q1' q2',
               q1 ++ q2 = q1' ++ q2' /\ BfsInv g s n' q1' q2' ord
               /\ (q1' = [] -> q2' = [])).
    { destruct q1 as [|x q1].
      - exists (S n), q2, []. rewrite app_nil_r.
        split; [reflexivity | split; [now apply inv_switch | reflexivity]].
      - exists n, (x :: q1), q2.
        split; [reflexivity | split; [exact H | discriminate]]. }
    destruct Hn as [n' [q1' [q2' [E [H' Hq]]]]]. rewrite E in Hrun. clear E H.
    destruct q1' as [|x q1'].
    + rewrite (Hq eq_refl) in *. simpl in Hrun. injection Hrun as <-.
      exact (inv_final H').
    + simpl in Hrun. destruct (set_has x ord) eqn:Ex.
      * apply IH with (n := n') (q1 := q1') (q2 := q2') (ord := ord);
          [|exact Hrun].
        apply inv_skip with x; [exact H' | now apply set_has_In].
      * rewrite (set_add_fresh _ _ Ex), enqueue_filter, <- app_assoc in Hrun.
        eapply IH; [|exact Hrun].
        apply inv_visit; [exact H' | now apply set_has_false].
Qed.

Lemma set_has_snoc k x (vis : JsSet) :
  set_has k (vis ++ [x]) = set_has k vis || String.eqb k x.
Proof.
  unfold set_has. rewrite existsb_app. simpl. now rewrite orb_false_r.
Qed.

Lemma pending_mono adj x vis : pending adj (vis ++ [x]) <= pending adj vis.
Proof.
  induction adj as [|[k m] adj IH]; simpl; [lia|].
  rewrite set_has_snoc.
  destruct (set_has k vis), (String.eqb k x); simpl; lia.
Qed.

(** Visiting [x] uses up its adjacency entries. *)
Lemma pending_visit adj x vis :
  set_has x vis = false ->
  length (match map_get x adj with
          | Some m => map_keys m
          | None => []
          end)
  + pending adj (vis ++ [x]) <= pending adj vis.
Proof.
  intros Hx. induction adj as [|[k m] adj IH]; simpl; [lia|].
  rewrite set_has_snoc. destruct (String.eqb x k) eqn:E.
  - apply String.eqb_eq in E. subst k.
    rewrite Hx, String.eqb_refl. simpl.
    unfold map_keys. rewrite length_map.
    pose proof (pending_mono adj x vis). lia.
  - rewrite String.eqb_sym, E, orb_false_r.
    destruct (set_has k vis); simpl; lia.
Qed.

(** The loop returns when its fuel covers the queue and the entries of
    the unvisited keys. *)
Lemma broadcastLoop_returns fuel : forall vis q ord,
  length q + pending (adjacencyList g) vis <= fuel ->
  exists out, broadcastLoop fuel g vis q ord = Returned out.
Proof.
  induction fuel as [|fuel IH]; intros vis q ord Hf;
    destruct q as [|x q]; simpl; eauto.
  - simpl in Hf. lia.
  - change (length (x :: q)) with (S (length q)) in Hf.
    destruct (set_has x vis) eqn:Ex.
    + apply IH. lia.
    + rewrite (set_add_fresh _ _ Ex), enqueue_filter. apply IH.
      rewrite length_app.
      pose proof (filter_length_le
                    (fun y => negb (set_has y (vis ++ [x])))
                    (getConnectedNodes g x)) as Hl.
      pose proof (pending_visit (adjacencyList g) x vis Ex) as Hp.
      fold (getConnectedNodes g x) in Hp. lia.
Qed.

Lemma broadcastPath_returns : exists out, broadcastPath g s = Returned out.
Proof.
  apply broadcastLoop_returns. unfold broadcastFuel.
  assert (E : forall adj : JsMap (JsMap Js.number),
             pending adj [] = fold_right (fun kv acc => length (snd kv) + acc) 0 adj).
  { induction adj as [|[k m] adj IH]; simpl; [reflexivity | now rewrite IH]. }
  rewrite E. simpl. lia.
Qed.

(** [broadcastPath] returns, and what it returns is a breadth-first
    order from its start. *)
Lemma broadcastPath_bfs :
  exists out, broadcastPath g s = Returned out /\ BfsOrder g s out.
Proof.
  destruct broadcastPath_returns as [out Hout]. exists out.
  split; [exact Hout|].
  apply broadcastLoop_order
    with (fuel := broadcastFuel g) (n := 0) (q1 := [s]) (q2 := []) (ord := []).
  - apply inv_init.
  - exact Hout.
Qed.

End Broadcast.

(** ** All destinations *)

Section AllPaths.

Variable route : string -> Outcome (option RoutingResult).
Variable f : string -> option RoutingResult.
Hypothesis route_returns : forall id, route id = Returned (f id).
Variable start : string.

(** The loop of [findAllPaths] over the ids [l], from the results [m0]:
    an id of [l] other than [start] with a route gets that route, every
    other key keeps what it had. *)
Lemma allPaths_fold : forall l m0, exists m,
  fold_left (allPathsStepWith route start) l (Returned m0) = Returned m /\
  forall id,
    map_get id m =
    if set_has id l && negb (String.eqb id start) then
      match f id with
      | Some r => Some r
      | None => map_get id m0
      end
    else map_get id m0.
Proof.
  induction l as [|a l IH]; intros m0.
  - exists m0. split; reflexivity.
  - cbn [fold_left]. unfold allPathsStepWith at 2. cbn [bind].
    destruct (String.eqb a start) eqn:Ea; simpl.
    + destruct (IH m0) as [m [Hm Hget]]. exists m. split; [exact Hm|].
      intros id. rewrite Hget.
      destruct (String.eqb id a) eqn:Ei; simpl; [|reflexivity].
      apply String.eqb_eq in Ei. subst id. rewrite Ea. simpl.
      now rewrite andb_false_r.
    + rewrite route_returns. simpl. destruct (f a) as [r|] eqn:Er.
      * destruct (IH (map_set a r m0)) as [m [Hm Hget]].
        exists m. split; [exact Hm|].
        intros id. rewrite Hget.
        destruct (String.eqb id a) eqn:Ei; simpl.
        -- apply String.eqb_eq in Ei. subst id.
           rewrite Ea, Er, map_get_set_same. simpl.
           now destruct (set_has a l).
        -- apply String.eqb_neq in Ei. now rewrite map_get_set_other.
      * destruct (IH m0) as [m [Hm Hget]].
        exists m. split; [exact Hm|].
        intros id. rewrite Hget.
        destruct (String.eqb id a) eqn:Ei; simpl; [|reflexivity].
        apply String.eqb_eq in Ei. subst id. rewrite Ea, Er. simpl.
        now destruct (set_has a l).
Qed.

End AllPaths.

(** ** JavaScript readings and the scenarios of the specification *)

Example zero_is_falsy :
  Js.truthy 0%float = false /\ Js.truthy (-0)%float = false /\
  Js.truthy nan = false /\
  Js.truthy Js.Infinity = true /\ Js.truthy 11%float = true.
Proof. repeat split; reflexivity. Qed.

Example zero_or_infinity :
  Js.orElse (Some 0%float) Js.Infinity = Js.Infinity /\
  PrimFloat.ltb Js.Infinity Js.Infinity = false.
Proof. split; reflexivity. Qed.

Example adjacency_ABC :
  adjacencyList (new_NetworkGraph nodesABC linksABC) =
  [("A", [("B", 11%float)]);
   ("B", [("A", 11%float); ("C", 11%float)]);
   ("C", [("B", 11%float)])]%string.
Proof. reflexivity. Qed.

Example broadcast_ABC :
  calculateBroadcastRoute nodesABC linksABC "A"
  = Returned ["A"; "B"; "C"]%string.
Proof. reflexivity. Qed.

Example broadcast_isolated :
  calculateBroadcastRoute nodesABC [] "C" = Returned ["C"%string].
Proof. reflexivity. Qed.

Example route_BC_disabled :
  calculateOptimalRoute nodesABC (deactivate 1 linksABC) "A" "C"
  = Returned None.
Proof. reflexivity. Qed.

(** For the first selection the search state of the scenario reads every
    distance as [Infinity] and picks no node. *)
Example first_selection_ABC :
  let st := initSearch (new_NetworkGraph nodesABC linksABC) "A" in
  distances st = [("A", 0%float); ("B", Js.Infinity); ("C", Js.Infinity)]%string /\
  unvisited st = ["A"; "B"; "C"]%string /\
  selectMin (distances st) (unvisited st) = (None, Js.Infinity).
Proof. repeat split; reflexivity. Qed.

(** ** Properties stated by the specification *)

(** C1. [findShortestPath] is to return the least-cost route between two
    distinct vertices and [null] only when no walk joins them.  It does not:
    on the nodes [A], [B] with one active link between them, both ids are
    vertices, [B] is one adjacency entry away from [A], and the result is
    [null].  The selection loop reads [distances.get(nodeId) || Infinity],
    so the start's distance [0] reads as [Infinity], no node is selected and
    the search stops at its first iteration ([searchLoop_exits]); for
    distinct ids the result is always [null] ([findShortestPath_distinct]). *)
Theorem findShortestPath_direct_link_null :
  let g := new_NetworkGraph nodesAB linkAB in
  map_has "A" (nodes g) = true /\ map_has "B" (nodes g) = true /\
  edgeWeight g "A" "B" = Some 11%float /\
  walk g "A" 1 "B" /\
  findShortestPath g "A" "B" = Returned None.
Proof.
  repeat split; try reflexivity.
  apply walk_S with "A"%string; [constructor | now left].
Qed.

(** C2, as stated, fails: with two active connections between [A] and [B],
    of weights 11 and 22, every hypothesis of the claim holds but the entry
    from [A] to [B] does not carry the weight of the first connection: the
    second [set] replaced it. *)
Lemma constructor_weight_overwritten :
  let g := new_NetworkGraph nodesAB linksABtwice in
  NoDup (map nodeId nodesAB) /\
  (forall c, In c linksABtwice ->
     In (fromNodeId c) (map nodeId nodesAB) /\
     In (toNodeId c) (map nodeId nodesAB)) /\
  ~ (forall c, In c linksABtwice -> isActive c = true ->
       edgeWeight g (fromNodeId c) (toNodeId c)
       = Some (distance c * 10 + latency c / 10)%float /\
       edgeWeight g (toNodeId c) (fromNodeId c)
       = Some (distance c * 10 + latency c / 10)%float).
Proof.
  split; [|split].
  - repeat constructor; simpl; intuition discriminate.
  - intros c [<- | [<- | []]]; simpl; auto.
  - intros H.
    destruct (H (mkConn "A" "B" 1%float 10%float true)) as [H1 _];
      [now left | reflexivity |].
    apply (f_equal (fun o => match o with
                             | Some w => PrimFloat.ltb w 15
                             | None => false
                             end)) in H1.
    vm_compute in H1. discriminate.
Qed.

(** C2, amended.  When both ends of every connection are node ids:
    - an active connection that no later active connection joins the same
      two ids as has an entry in both directions with its own weight
      [distance * 10 + latency / 10];
    - every active connection has an entry in both directions, with one
      weight;
    - every entry comes from an active connection joining its two ids and
      carries that connection's weight, so inactive connections leave
      nothing.
    The node ids need not be unique. *)
Theorem constructor_adjacency nodeList connections :
  (forall c, In c connections ->
     In (fromNodeId c) (map nodeId nodeList) /\
     In (toNodeId c) (map nodeId nodeList)) ->
  let g := new_NetworkGraph nodeList connections in
  (forall pre c post,
     connections = pre ++ c :: post -> isActive c = true ->
     (forall c', In c' post -> isActive c' = true ->
        ~ joins c' (fromNodeId c) (toNodeId c)) ->
     edgeWeight g (fromNodeId c) (toNodeId c)
     = Some (distance c * 10 + latency c / 10)%float /\
     edgeWeight g (toNodeId c) (fromNodeId c)
     = Some (distance c * 10 + latency c / 10)%float) /\
  (forall c, In c connections -> isActive c = true ->
     exists w, edgeWeight g (fromNodeId c) (toNodeId c) = Some w /\
               edgeWeight g (toNodeId c) (fromNodeId c) = Some w) /\
  (forall u v w, edgeWeight g u v = Some w ->
     exists c, In c connections /\ isActive c = true /\ joins c u v /\
               w = (distance c * 10 + latency c / 10)%float).
Proof.
  intros Href g.
  set (adj0 := snd (fold_left addNode nodeList ([], []))).
  assert (Hg : forall u v,
             edgeWeight g u v
             = adjWeight (fold_left addConnection connections adj0) u v)
    by reflexivity.
  assert (Hkey : forall l k, In k (map nodeId nodeList) ->
                   map_has k (fold_left addConnection l adj0) = true).
  { intros l k Hk. unfold adj0. rewrite connections_has, nodes_has_adj.
    simpl. rewrite orb_false_r. now apply set_has_In. }
  split; [|split].
  - intros pre c post E Ha Hlast. rewrite !Hg, E, fold_left_app. simpl.
    destruct (Href c) as [Hf Ht]; [rewrite E; apply in_elt|].
    rewrite !connections_keep
      by (try exact Hlast; intros c' Hc' Ha' Hj;
          apply (Hlast c' Hc' Ha'); now apply joins_sym).
    rewrite !addConnection_weight, Ha, !Hkey, !String.eqb_refl by assumption.
    simpl. split; [|reflexivity].
    now destruct (String.eqb (fromNodeId c) (toNodeId c)
                  && String.eqb (toNodeId c) (fromNodeId c) && true).
  - intros c Hc Ha. destruct (Href c Hc) as [Hf Ht].
    pose proof (@active_connection_entry nodeList connections c
                  (fromNodeId c) (toNodeId c) Hc Ha
                  (or_introl (conj eq_refl eq_refl)) Hf) as Hentry.
    fold g in Hentry.
    destruct (edgeWeight g (fromNodeId c) (toNodeId c)) as [w|] eqn:E;
      [|congruence].
    exists w. split; [reflexivity|].
    rewrite Hg in *. rewrite connections_symmetric; [exact E | |].
    + intros c' Hc'. destruct (Href c' Hc').
      split; apply (Hkey []); assumption.
    + intros u v. unfold adj0. now rewrite !initial_weight.
  - intros u v w Hw. rewrite Hg in Hw.
    apply connections_origin in Hw. destruct Hw as [Hw | Hw]; [|exact Hw].
    unfold adj0 in Hw. rewrite initial_weight in Hw. discriminate.
Qed.

(** The second of two links between [A] and [B] is the last one joining
    them: both entries carry its weight 22. *)
Lemma constructor_adjacency_witness :
  let g := new_NetworkGraph nodesAB linksABtwice in
  edgeWeight g "A" "B" = Some 22%float /\
  edgeWeight g "B" "A" = Some 22%float.
Proof.
  assert (Href : forall c, In c linksABtwice ->
            In (fromNodeId c) (map nodeId nodesAB) /\
            In (toNodeId c) (map nodeId nodesAB))
    by (intros c [<- | [<- | []]]; simpl; auto).
  destruct (@constructor_adjacency nodesAB linksABtwice Href) as [H _].
  apply (H [mkConn "A" "B" 1%float 10%float true]
           (mkConn "A" "B" 2%float 20%float true) []).
  - reflexivity.
  - reflexivity.
  - intros c' [].
Defined.

(** C3. [findShortestPath] is to return [null] exactly when an id is not a
    vertex or no path exists.  It also returns [null] when a path exists:
    on the nodes [A], [B], [C] with the active links [A-B] and [B-C], both
    [A] and [C] are vertices, [C] is two adjacency entries away from [A],
    and the result is [null] where the route [A, B, C] over two links of
    weight 11 is expected.  Same defect as in C1: the selection loop reads the start's
    distance [0] as [Infinity]. *)
Theorem findShortestPath_two_hops_null :
  let g := new_NetworkGraph nodesABC linksABC in
  map_has "A" (nodes g) = true /\ map_has "C" (nodes g) = true /\
  walk g "A" 2 "C" /\
  pathCost linksABC ["A"; "B"; "C"]%string = Some 22%float /\
  findShortestPath g "A" "C" = Returned None /\
  calculateOptimalRoute nodesABC linksABC "A" "C" = Returned None.
Proof.
  repeat split; try reflexivity.
  apply walk_S with "B"%string; [|right; now left].
  apply walk_S with "A"%string; [constructor | now left].
Qed.

(** C4. For a vertex [x], [findShortestPath g x x] returns the route [[x]]
    of cost 0 and 0 hops, whatever the adjacency structure of [g] holds:
    the test [start === end] decides before the search is entered. *)
Theorem findShortestPath_self (g : NetworkGraph) (x : string) :
  map_has x (nodes g) = true ->
  findShortestPath g x x =
  Returned (Some {| path := [x]; totalDistance := 0%float; hops := 0%Z |}).
Proof.
  intros Hx. unfold findShortestPath.
  rewrite Hx, String.eqb_refl. reflexivity.
Qed.

(** The isolated vertex [C] routes to itself. *)
Lemma findShortestPath_self_witness :
  findShortestPath (new_NetworkGraph nodesABC []) "C" "C" =
  Returned (Some {| path := ["C"%string]; totalDistance := 0%float;
                    hops := 0%Z |}).
Proof.
  apply (@findShortestPath_self (new_NetworkGraph nodesABC []) "C").
  reflexivity.
Defined.

(** C5. From a vertex [s], [broadcastPath] returns a sequence in which every
    id reachable from [s] occurs exactly once, no other id occurs, hop
    distance from [s] never decreases from an element to a later one, and
    every element after the first is a neighbor of an earlier element. *)
Theorem broadcastPath_breadth_first nodeList connections (s : string) :
  In s (map nodeId nodeList) ->
  let g := new_NetworkGraph nodeList connections in
  exists out,
    broadcastPath g s = Returned out /\
    (forall x, reachable g s x -> count_occ string_dec out x = 1) /\
    (forall x, ~ reachable g s x -> ~ In x out) /\
    (forall a u b v c, out = a ++ u :: b ++ v :: c -> hop_le g s u v) /\
    (forall a v c, out = a ++ v :: c -> a <> [] ->
       exists u, In u a /\ In v (getConnectedNodes g u)).
Proof.
  intros _ g. destruct (broadcastPath_bfs g s) as [out [Hout Hbfs]].
  exists out. split; [exact Hout|]. repeat split.
  - intros x Hx. apply NoDup_count_occ'; [exact (bfs_nodup Hbfs)|].
    now apply (bfs_reach Hbfs).
  - intros x Hx Hin. apply Hx. now apply (bfs_reach Hbfs).
  - exact (bfs_layers Hbfs).
  - exact (bfs_parent Hbfs).
Qed.

(** The chain [A-B-C] broadcast from [A]. *)
Lemma broadcastPath_breadth_first_witness :
  let g := new_NetworkGraph nodesABC linksABC in
  exists out,
    broadcastPath g "A" = Returned out /\
    (forall x, reachable g "A" x -> count_occ string_dec out x = 1) /\
    (forall x, ~ reachable g "A" x -> ~ In x out) /\
    (forall a u b v c, out = a ++ u :: b ++ v :: c -> hop_le g "A" u v) /\
    (forall a v c, out = a ++ v :: c -> a <> [] ->
       exists u, In u a /\ In v (getConnectedNodes g u)).
Proof.
  apply (@broadcastPath_breadth_first nodesABC linksABC "A").
  simpl. now left.
Defined.



(** C9. Started at an id that is not a vertex, [broadcastPath] returns the
    one-element sequence holding that id. *)
Theorem broadcastPath_unknown_start nodeList connections (S0 : string) :
  ~ In S0 (map nodeId nodeList) ->
  broadcastPath (new_NetworkGraph nodeList connections) S0 = Returned [S0].
Proof.
  intros HS.
  assert (Hn : getConnectedNodes (new_NetworkGraph nodeList connections) S0
               = []).
  { unfold getConnectedNodes.
    destruct (map_get S0 (adjacencyList (new_NetworkGraph nodeList connections)))
      eqn:E; [|reflexivity].
    exfalso. apply HS. apply (graph_has_key nodeList connections).
    unfold map_has. now rewrite E. }
  unfold broadcastPath, broadcastFuel. simpl. rewrite Hn. simpl.
  now destruct (fold_right _ _ _).
Qed.

(** [X] is mentioned by a link but is not a node. *)
Lemma broadcastPath_unknown_start_witness :
  broadcastPath (new_NetworkGraph nodesAB linksDangling) "X" = Returned ["X"%string].
Proof.
  apply (@broadcastPath_unknown_start nodesAB linksDangling "X").
  simpl. intuition discriminate.
Defined.

(** C10. An active connection whose [fromNodeId] is not a node id while its
    [toNodeId] is one leaves a one-sided entry: [getConnectedNodes] of
    [toNodeId] lists [fromNodeId], which itself has no neighbors; and
    [broadcastPath] from any vertex that reaches [toNodeId] returns a
    sequence that contains the non-vertex id [fromNodeId]. *)
Theorem dangling_connection_is_broadcast nodeList connections c (v : string) :
  In c connections -> isActive c = true ->
  ~ In (fromNodeId c) (map nodeId nodeList) ->
  In (toNodeId c) (map nodeId nodeList) ->
  In v (map nodeId nodeList) ->
  let g := new_NetworkGraph nodeList connections in
  reachable g v (toNodeId c) ->
  In (fromNodeId c) (getConnectedNodes g (toNodeId c)) /\
  getConnectedNodes g (fromNodeId c) = [] /\
  map_has (fromNodeId c) (nodes g) = false /\
  exists out, broadcastPath g v = Returned out /\ In (fromNodeId c) out.
Proof.
  intros Hc Ha Hfrom Hto _ g [k Hk].
  assert (Hentry : In (fromNodeId c) (getConnectedNodes g (toNodeId c))).
  { apply connected_iff_weight.
    apply active_connection_entry with c; auto. right. now split. }
  split; [exact Hentry|]. split; [|split].
  - unfold getConnectedNodes.
    destruct (map_get (fromNodeId c) (adjacencyList g)) eqn:E; [|reflexivity].
    exfalso. apply Hfrom. apply (graph_has_key nodeList connections).
    fold g. unfold map_has. now rewrite E.
  - destruct (map_has (fromNodeId c) (nodes g)) eqn:E; [|reflexivity].
    exfalso. apply Hfrom. now apply (graph_has_node nodeList connections).
  - destruct (broadcastPath_bfs g v) as [out [Hout Hbfs]].
    exists out. split; [exact Hout|].
    apply (bfs_reach Hbfs). exists (S k).
    now apply walk_S with (toNodeId c).
Qed.

(** The link [X-B] with [X] not a node, broadcast from [A]. *)
Lemma dangling_connection_is_broadcast_witness :
  let g := new_NetworkGraph nodesAB linksDangling in
  In "X"%string (getConnectedNodes g "B") /\
  getConnectedNodes g "X" = [] /\
  map_has "X" (nodes g) = false /\
  exists out, broadcastPath g "A" = Returned out /\ In "X"%string out.
Proof.
  apply (@dangling_connection_is_broadcast nodesAB linksDangling
           (mkConn "X" "B" 1%float 10%float true) "A").
  - right. now left.
  - reflexivity.
  - simpl. intuition discriminate.
  - simpl. right. now left.
  - simpl. now left.
  - exists 1. apply walk_S with "A"%string; [constructor | now left].
Defined.

(** ** Further properties of the construction *)

Section Keys.

Context {V : Type}.
Implicit Types (m : JsMap V) (k : string) (v : V).

Lemma map_keys_set k v m : map_keys (map_set k v m) = set_add k (map_keys m).
Proof.
  unfold set_add, set_has. induction m as [|[k' v'] m IH]; simpl.
  - reflexivity.
  - destruct (String.eqb k k') eqn:E; simpl.
    + apply String.eqb_eq in E. now subst.
    + rewrite IH. now destruct (existsb (String.eqb k) (map_keys m)).
Qed.

Lemma map_keys_set_present k v m :
  map_has k m = true -> map_keys (map_set k v m) = map_keys m.
Proof.
  intros H. rewrite map_keys_set. unfold set_add.
  apply map_has_keys, set_has_In in H. fold (@map_keys V) in H.
  now rewrite H.
Qed.

End Keys.

Lemma set_add_nodup k (s : JsSet) : NoDup s -> NoDup (set_add k s).
Proof.
  intros H. unfold set_add. destruct (set_has k s) eqn:E; [exact H|].
  apply nodup_snoc; [exact H | now apply set_has_false].
Qed.

Lemma setNeighbor_keys k n w adj :
  map_keys (setNeighbor k n w adj) = map_keys adj.
Proof.
  unfold setNeighbor. destruct (map_get k adj) eqn:E; [|reflexivity].
  apply map_keys_set_present. unfold map_has. now rewrite E.
Qed.

Lemma addConnection_keys adj c :
  map_keys (addConnection adj c) = map_keys adj.
Proof.
  unfold addConnection. destruct (isActive c); [|reflexivity].
  now rewrite !setNeighbor_keys.
Qed.

Lemma connections_keys l : forall adj,
  map_keys (fold_left addConnection l adj) = map_keys adj.
Proof.
  induction l as [|c l IH]; intros adj; simpl; [reflexivity|].
  now rewrite IH, addConnection_keys.
Qed.

Lemma nodes_keys l : forall st,
  map_keys (fst st) = map_keys (snd st) ->
  NoDup (map_keys (fst st)) ->
  map_keys (fst (fold_left addNode l st))
  = map_keys (snd (fold_left addNode l st))
  /\ NoDup (map_keys (fst (fold_left addNode l st))).
Proof.
  induction l as [|n l IH]; intros st He Hn; simpl; [now split|].
  apply IH; unfold addNode; simpl; rewrite !map_keys_set.
  - now rewrite He.
  - now apply set_add_nodup.
Qed.

Lemma setNeighbor_nodup k n w adj :
  Forall (fun kv => NoDup (map_keys (snd kv))) adj ->
  Forall (fun kv => NoDup (map_keys (snd kv))) (setNeighbor k n w adj).
Proof.
  intros H. unfold setNeighbor. destruct (map_get k adj) as [m|] eqn:E;
    [|exact H].
  apply (map_set_Forall (fun m : JsMap Js.number => NoDup (map_keys m)));
    [exact H|].
  rewrite map_keys_set. apply set_add_nodup.
  exact (map_get_Forall (fun m : JsMap Js.number => NoDup (map_keys m)) _ H E).
Qed.

Lemma connections_nodup l : forall adj,
  Forall (fun kv => NoDup (map_keys (snd kv))) adj ->
  Forall (fun kv => NoDup (map_keys (snd kv)))
    (fold_left addConnection l adj).
Proof.
  induction l as [|c l IH]; intros adj H; simpl; [exact H|].
  apply IH. unfold addConnection. destruct (isActive c); [|exact H].
  now apply setNeighbor_nodup, setNeighbor_nodup.
Qed.

Lemma connections_filter_active l : forall adj,
  fold_left addConnection l adj
  = fold_left addConnection (filter isActive l) adj.
Proof.
  induction l as [|c l IH]; intros adj; simpl; [reflexivity|].
  destruct (isActive c) eqn:E; simpl; [apply IH|].
  unfold addConnection at 2. rewrite E. apply IH.
Qed.

Lemma find_append (A : Type) (f : A -> bool) (l1 l2 : list A) :
  find f (l1 ++ l2) =
  match find f l1 with
  | Some x => Some x
  | None => find f l2
  end.
Proof.
  induction l1 as [|a l1 IH]; simpl; [reflexivity|].
  now destruct (f a).
Qed.

Lemma nodes_last_wins l : forall st k,
  map_get k (fst (fold_left addNode l st)) =
  match find (fun n => String.eqb (nodeId n) k) (rev l) with
  | Some n => Some n
  | None => map_get k (fst st)
  end.
Proof.
  induction l as [|n l IH]; intros st k; simpl; [reflexivity|].
  rewrite IH, find_append.
  destruct (find (fun n0 => String.eqb (nodeId n0) k) (rev l)); [reflexivity|].
  simpl. destruct (String.eqb (nodeId n) k) eqn:E.
  - apply String.eqb_eq in E. subst k. apply map_get_set_same.
  - apply String.eqb_neq in E. apply map_get_set_other. congruence.
Qed.

(** X1. The vertices are the node ids: the keys of [nodes] and of
    [adjacencyList] are the same sequence, hold no id twice, and hold
    exactly the ids of the node list, whatever the connections are. *)
Theorem constructor_vertices nodeList connections :
  let g := new_NetworkGraph nodeList connections in
  map_keys (nodes g) = map_keys (adjacencyList g) /\
  NoDup (map_keys (nodes g)) /\
  (forall k, In k (map_keys (nodes g)) <-> In k (map nodeId nodeList)).
Proof.
  intros g.
  destruct (nodes_keys nodeList ([], []) eq_refl (NoDup_nil _)) as [He Hn].
  split; [|split].
  - unfold g, new_NetworkGraph. simpl. now rewrite connections_keys.
  - exact Hn.
  - intros k. rewrite <- map_has_keys. apply graph_has_node.
Qed.

(** X2. When several nodes of the list share an id, the vertex keeps the
    record of the last of them; an id of no node has no record. *)
Theorem constructor_last_node_wins nodeList connections (k : string) :
  map_get k (nodes (new_NetworkGraph nodeList connections))
  = find (fun n => String.eqb (nodeId n) k) (rev nodeList).
Proof.
  unfold new_NetworkGraph. simpl. rewrite nodes_last_wins. simpl.
  now destruct (find _ _).
Qed.

(** X3. Inactive connections play no part: the graph built from a
    connection list is the graph built from its active connections. *)
Theorem constructor_ignores_inactive nodeList connections :
  new_NetworkGraph nodeList connections
  = new_NetworkGraph nodeList (filter isActive connections).
Proof.
  unfold new_NetworkGraph. f_equal. apply connections_filter_active.
Qed.

(** A listed neighbor comes from an active connection, and only node ids
    have neighbors. *)
Lemma neighbor_origin nodeList connections (u v : string) :
  In v (getConnectedNodes (new_NetworkGraph nodeList connections) u) ->
  In u (map nodeId nodeList) /\
  exists c, In c connections /\ isActive c = true /\ joins c u v.
Proof.
  rewrite connected_iff_weight. intros H. split.
  - apply (graph_has_key nodeList connections). unfold map_has.
    unfold edgeWeight in H.
    now destruct (map_get u (adjacencyList _)).
  - destruct (edgeWeight _ u v) as [w|] eqn:E; [|congruence].
    unfold edgeWeight, new_NetworkGraph in E. simpl in E.
    fold (adjWeight
            (fold_left addConnection connections
               (snd (fold_left addNode nodeList ([], [])))) u v) in E.
    apply connections_origin in E. destruct E as [E | [c [Hc [Ha [Hj _]]]]].
    + rewrite initial_weight in E. discriminate.
    + now exists c.
Qed.

(** X4. [v] is listed by [getConnectedNodes g u] exactly when [u] is a node
    id and some active connection joins [u] and [v], in either direction;
    [v] itself need not be a node. *)
Theorem getConnectedNodes_iff nodeList connections (u v : string) :
  In v (getConnectedNodes (new_NetworkGraph nodeList connections) u) <->
  In u (map nodeId nodeList) /\
  exists c, In c connections /\ isActive c = true /\ joins c u v.
Proof.
  split.
  - apply neighbor_origin.
  - intros [Hu [c [Hc [Ha Hj]]]]. apply connected_iff_weight.
    now apply active_connection_entry with c.
Qed.

(** Every neighbor map of a constructed graph has distinct keys. *)
Lemma graph_inner_nodup nodeList connections :
  Forall (fun kv => NoDup (map_keys (snd kv)))
    (adjacencyList (new_NetworkGraph nodeList connections)).
Proof.
  unfold new_NetworkGraph. simpl. apply connections_nodup.
  eapply Forall_impl; [|apply nodes_empty_adj; constructor].
  intros [k m'] Hm. simpl in *. subst. constructor.
Qed.

(** X5. [getConnectedNodes] never lists an id twice, however many
    connections join the same two ids. *)
Theorem getConnectedNodes_nodup nodeList connections (u : string) :
  NoDup (getConnectedNodes (new_NetworkGraph nodeList connections) u).
Proof.
  unfold getConnectedNodes.
  destruct (map_get u (adjacencyList _)) as [m|] eqn:E; [|constructor].
  exact (map_get_Forall (fun m : JsMap Js.number => NoDup (map_keys m)) _
           (graph_inner_nodup nodeList connections) E).
Qed.

(** X6. When both ends of every active connection are node ids, the
    adjacency structure is symmetric: the entry from [u] to [v] and the
    entry from [v] to [u] are both absent or carry the same weight. *)
Theorem adjacency_symmetric nodeList connections :
  (forall c, In c connections -> isActive c = true ->
     In (fromNodeId c) (map nodeId nodeList) /\
     In (toNodeId c) (map nodeId nodeList)) ->
  forall u v,
    edgeWeight (new_NetworkGraph nodeList connections) u v
    = edgeWeight (new_NetworkGraph nodeList connections) v u.
Proof.
  intros Href u v. unfold edgeWeight, new_NetworkGraph. simpl.
  rewrite connections_filter_active. apply connections_symmetric.
  - intros c Hc. apply filter_In in Hc. destruct Hc as [Hc Ha].
    destruct (Href c Hc Ha) as [Hf Ht].
    rewrite !nodes_has_adj. simpl. rewrite !orb_false_r.
    split; now apply set_has_In.
  - intros a b. now rewrite !initial_weight.
Qed.

(** The one-sided link [X-B] lies in an inactive connection here. *)
Lemma adjacency_symmetric_witness :
  edgeWeight (new_NetworkGraph nodesAB
                [mkConn "A" "B" 1%float 10%float true;
                 mkConn "X" "B" 1%float 10%float false]) "A" "B"
  = edgeWeight (new_NetworkGraph nodesAB
                [mkConn "A" "B" 1%float 10%float true;
                 mkConn "X" "B" 1%float 10%float false]) "B" "A".
Proof.
  apply (@adjacency_symmetric nodesAB
           [mkConn "A" "B" 1%float 10%float true;
            mkConn "X" "B" 1%float 10%float false]).
  intros c [<- | [<- | []]] Ha; simpl in *; [auto | discriminate].
Defined.

(** ** Further properties of the routes *)

(** X7. [findShortestPath] always returns, and it returns a route exactly
    when its two ids are the same vertex; the route is then that single
    vertex with cost 0 and 0 hops.  Between two different ids it returns
    [null] whatever the connections are. *)
Theorem findShortestPath_iff (g : NetworkGraph) (s d : string) :
  (exists o, findShortestPath g s d = Returned o) /\
  forall r,
    findShortestPath g s d = Returned (Some r) <->
    s = d /\ map_has s (nodes g) = true /\
    r = {| path := [s]; totalDistance := 0%float; hops := 0%Z |}.
Proof.
  rewrite findShortestPath_value. split; [eauto|].
  intros r. destruct (String.eqb s d) eqn:E.
  - apply String.eqb_eq in E. subst d.
    destruct (map_has s (nodes g)); simpl; split.
    + intros [= <-]. auto.
    + intros [_ [_ ->]]. reflexivity.
    + discriminate.
    + intros [_ [H _]]. discriminate.
  - apply String.eqb_neq in E.
    destruct (_ && _); split; try discriminate; intros [H _]; contradiction.
Qed.

(** X8. [findAllPaths] returns the empty mapping for every graph and every
    start: no destination other than the start ever gets a route. *)
Theorem findAllPaths_empty (g : NetworkGraph) (start : string) :
  findAllPaths g start = Returned [].
Proof.
  unfold findAllPaths.
  induction (map_keys (nodes g)) as [|id l IH]; simpl; [reflexivity|].
  destruct (String.eqb id start) eqn:E; simpl; [exact IH|].
  rewrite findShortestPath_distinct; [exact IH|].
  intros ->. now rewrite String.eqb_refl in E.
Qed.

(** ** Further properties of the broadcast *)

(** X9. The sequence returned by [broadcastPath] begins with the start id,
    vertex or not. *)
Theorem broadcastPath_starts_at_start (g : NetworkGraph) (s : string) :
  exists rest, broadcastPath g s = Returned (s :: rest).
Proof.
  destruct (broadcastPath_bfs g s) as [out [Hout Hbfs]].
  pose proof (bfs_first Hbfs) as Hf.
  destruct out as [|x rest]; [discriminate|].
  injection Hf as ->. now exists rest.
Qed.

Lemma reachable_self_only g s :
  (forall v, In v (getConnectedNodes g s) -> v = s) ->
  forall k x, walk g s k x -> x = s.
Proof.
  intros H k x Hw. induction Hw as [|k u v _ IH Hin]; [reflexivity|].
  subst u. now apply H.
Qed.

(** X10. [broadcastPath] returns the start alone exactly when the start has
    no neighbor other than itself: an isolated vertex, an id that is no
    vertex, or a vertex whose only link is to itself. *)
Theorem broadcastPath_singleton_iff (g : NetworkGraph) (s : string) :
  broadcastPath g s = Returned [s] <->
  (forall v, In v (getConnectedNodes g s) -> v = s).
Proof.
  destruct (broadcastPath_bfs g s) as [out [Hout Hbfs]]. rewrite Hout.
  split.
  - intros [= ->] v Hv.
    assert (Hin : In v [s]).
    { apply (bfs_reach Hbfs). exists 1.
      apply walk_S with s; [constructor | exact Hv]. }
    destruct Hin as [<- | []]. reflexivity.
  - intros H. f_equal.
    pose proof (bfs_first Hbfs) as Hf. pose proof (bfs_nodup Hbfs) as Hn.
    destruct out as [|x [|y rest]]; [discriminate | now injection Hf as -> |].
    injection Hf as ->. exfalso.
    assert (Hy : y = s).
    { destruct (proj1 (bfs_reach Hbfs y)) as [k Hk]; [right; now left|].
      exact (reachable_self_only H Hk). }
    subst y. inversion Hn as [|? ? Hnot _]. apply Hnot. now left.
Qed.

Lemma walk_stays_in_nodes nodeList connections s :
  (forall c, In c connections -> isActive c = true ->
     In (fromNodeId c) (map nodeId nodeList) /\
     In (toNodeId c) (map nodeId nodeList)) ->
  In s (map nodeId nodeList) ->
  forall k x, walk (new_NetworkGraph nodeList connections) s k x ->
              In x (map nodeId nodeList).
Proof.
  intros Href Hs k x Hw. induction Hw as [|k u v _ _ Hin]; [exact Hs|].
  apply neighbor_origin in Hin.
  destruct Hin as [_ [c [Hc [Ha Hj]]]]. destruct (Href c Hc Ha) as [Hf Ht].
  destruct Hj as [[_ <-] | [<- _]]; assumption.
Qed.

(** X11. When both ends of every active connection are node ids and the
    start is one, [broadcastPath] returns only vertices, and no more of
    them than the graph has. *)
Theorem broadcastPath_within_vertices nodeList connections (s : string) :
  (forall c, In c connections -> isActive c = true ->
     In (fromNodeId c) (map nodeId nodeList) /\
     In (toNodeId c) (map nodeId nodeList)) ->
  In s (map nodeId nodeList) ->
  let g := new_NetworkGraph nodeList connections in
  exists out,
    broadcastPath g s = Returned out /\
    (forall x, In x out -> map_has x (nodes g) = true) /\
    length out <= length (map_keys (nodes g)).
Proof.
  intros Href Hs g. destruct (broadcastPath_bfs g s) as [out [Hout Hbfs]].
  exists out. split; [exact Hout|].
  assert (Hin : forall x, In x out -> In x (map nodeId nodeList)).
  { intros x Hx. apply (bfs_reach Hbfs) in Hx. destruct Hx as [k Hk].
    exact (@walk_stays_in_nodes nodeList connections s Href Hs k x Hk). }
  split.
  - intros x Hx. apply graph_has_node. now apply Hin.
  - apply NoDup_incl_length; [exact (bfs_nodup Hbfs)|].
    intros x Hx. apply map_has_keys. apply graph_has_node. now apply Hin.
Qed.

Lemma broadcastPath_within_vertices_witness :
  let g := new_NetworkGraph nodesABC linksABC in
  exists out,
    broadcastPath g "B" = Returned out /\
    (forall x, In x out -> map_has x (nodes g) = true) /\
    length out <= length (map_keys (nodes g)).
Proof.
  apply (@broadcastPath_within_vertices nodesABC linksABC "B").
  - intros c [<- | [<- | []]] _; simpl; auto.
  - simpl. right. now left.
Defined.

Lemma deactivate_active i : forall l c,
  In c (deactivate i l) -> isActive c = true -> In c l.
Proof.
  induction i as [|i IH]; intros [|c0 l] c Hin Ha; simpl in *; try tauto.
  - destruct Hin as [<- | Hin]; [discriminate | now right].
  - destruct Hin as [<- | Hin]; [now left | right; now apply IH].
Qed.

Lemma walk_deactivate nodeList connections i s k x :
  walk (new_NetworkGraph nodeList (deactivate i connections)) s k x ->
  walk (new_NetworkGraph nodeList connections) s k x.
Proof.
  intros Hw. induction Hw as [|k u v _ IH Hin]; [constructor|].
  apply walk_S with u; [exact IH|].
  apply neighbor_origin in Hin. destruct Hin as [Hu [c [Hc [Ha Hj]]]].
  apply connected_iff_weight. apply active_connection_entry with c; auto.
  now apply deactivate_active with i.
Qed.

(** X12. Making a connection inactive never adds a recipient: every id of
    the broadcast on the reduced topology is in the broadcast on the
    original one. *)
Theorem deactivation_shrinks_broadcast nodeList connections (i : nat)
    (s : string) :
  exists out out',
    broadcastPath (new_NetworkGraph nodeList connections) s = Returned out /\
    broadcastPath (new_NetworkGraph nodeList (deactivate i connections)) s
    = Returned out' /\
    incl out' out.
Proof.
  destruct (broadcastPath_bfs (new_NetworkGraph nodeList connections) s)
    as [out [Hout Hbfs]].
  destruct (broadcastPath_bfs
              (new_NetworkGraph nodeList (deactivate i connections)) s)
    as [out' [Hout' Hbfs']].
  exists out, out'. split; [exact Hout | split; [exact Hout'|]].
  intros x Hx. apply (bfs_reach Hbfs). apply (bfs_reach Hbfs') in Hx.
  destruct Hx as [k Hk]. exists k. now apply walk_deactivate with i.
Qed.

(** ** The broadcast does not read the weights *)

Lemma shape_refl adj : sameShape adj adj.
Proof. induction adj; constructor; auto. Qed.

Lemma shape_get adj adj' k :
  sameShape adj adj' ->
  match map_get k adj, map_get k adj' with
  | Some m, Some m' => map_keys m = map_keys m'
  | None, None => True
  | _, _ => False
  end.
Proof.
  induction 1 as [|[k1 m1] [k2 m2] adj adj' [Hk Hm] _ IH]; simpl in *.
  - exact I.
  - subst k2. destruct (String.eqb k k1); [exact Hm | exact IH].
Qed.

Lemma shape_set adj adj' k (m m' : JsMap Js.number) :
  sameShape adj adj' -> map_keys m = map_keys m' ->
  sameShape (map_set k m adj) (map_set k m' adj').
Proof.
  intros H Hm.
  induction H as [|[k1 m1] [k2 m2] adj adj' [Hk Hm1] H IH]; simpl in *.
  - constructor; [now split | constructor].
  - subst k2. destruct (String.eqb k k1); constructor; auto.
Qed.

Lemma shape_setNeighbor k n w w' adj adj' :
  sameShape adj adj' ->
  sameShape (setNeighbor k n w adj) (setNeighbor k n w' adj').
Proof.
  intros H. unfold setNeighbor. pose proof (shape_get k H) as Hg.
  destruct (map_get k adj), (map_get k adj'); try contradiction; auto.
  apply shape_set; [exact H|]. now rewrite !map_keys_set, Hg.
Qed.

Lemma shape_addConnection adj adj' c c' :
  sameShape adj adj' -> sameLinks c c' ->
  sameShape (addConnection adj c) (addConnection adj' c').
Proof.
  intros H [Hf [Ht Ha]]. unfold addConnection. rewrite Hf, Ht, Ha.
  destruct (isActive c'); [|exact H].
  now apply shape_setNeighbor, shape_setNeighbor.
Qed.

Lemma shape_connections l l' :
  Forall2 sameLinks l l' ->
  forall adj adj', sameShape adj adj' ->
    sameShape (fold_left addConnection l adj) (fold_left addConnection l' adj').
Proof.
  induction 1 as [|c c' l l' Hc _ IH]; intros adj adj' H; simpl; [exact H|].
  apply IH. now apply shape_addConnection.
Qed.

Lemma shape_neighbors g g' :
  sameShape (adjacencyList g) (adjacencyList g') ->
  forall u, getConnectedNodes g u = getConnectedNodes g' u.
Proof.
  intros H u. unfold getConnectedNodes. pose proof (shape_get u H) as Hg.
  destruct (map_get u (adjacencyList g)), (map_get u (adjacencyList g'));
    try contradiction; auto.
Qed.

Lemma shape_fuel g g' :
  sameShape (adjacencyList g) (adjacencyList g') ->
  broadcastFuel g = broadcastFuel g'.
Proof.
  unfold broadcastFuel. intros H. f_equal.
  induction H as [|[k m] [k' m'] adj adj' [_ Hm] _ IH]; simpl in *;
    [reflexivity|].
  rewrite IH. f_equal. unfold map_keys in Hm.
  now rewrite <- (length_map fst m), <- (length_map fst m'), Hm.
Qed.

Lemma broadcastLoop_neighbors g g' :
  (forall u, getConnectedNodes g u = getConnectedNodes g' u) ->
  forall fuel vis q ord,
    broadcastLoop fuel g vis q ord = broadcastLoop fuel g' vis q ord.
Proof.
  intros H. induction fuel as [|fuel IH]; intros vis q ord;
    destruct q as [|x q]; simpl; try reflexivity.
  destruct (set_has x vis); [apply IH|]. rewrite H. apply IH.
Qed.

(** X13. The broadcast depends on which connections are active between
    which ids and on nothing else: two connection lists that agree, one
    connection after the other, on [fromNodeId], [toNodeId] and [isActive]
    give the same sequence, whatever their distances and latencies. *)
Theorem broadcastPath_ignores_weights nodeList connections connections'
    (s : string) :
  Forall2 sameLinks connections connections' ->
  broadcastPath (new_NetworkGraph nodeList connections) s
  = broadcastPath (new_NetworkGraph nodeList connections') s.
Proof.
  intros H.
  assert (Hs : sameShape
                 (adjacencyList (new_NetworkGraph nodeList connections))
                 (adjacencyList (new_NetworkGraph nodeList connections'))).
  { unfold new_NetworkGraph. simpl.
    apply shape_connections; [exact H | apply shape_refl]. }
  unfold broadcastPath. rewrite (shape_fuel _ _ Hs).
  apply broadcastLoop_neighbors. now apply shape_neighbors.
Qed.

Lemma broadcastPath_ignores_weights_witness :
  broadcastPath (new_NetworkGraph nodesABC linksABC) "A"
  = broadcastPath
      (new_NetworkGraph nodesABC
         [mkConn "A" "B" 7%float 3%float true;
          mkConn "B" "C" 0%float 900%float true]) "A".
Proof.
  apply (@broadcastPath_ignores_weights nodesABC linksABC
           [mkConn "A" "B" 7%float 3%float true;
            mkConn "B" "C" 0%float 900%float true] "A").
  repeat constructor.
Defined.

(** ** The message composer *)

Lemma filter_head_find (A : Type) (f : A -> bool) (l : list A) :
  hd_error (filter f l) = find f l.
Proof.
  induction l as [|a l IH]; simpl; [reflexivity|].
  now destruct (f a).
Qed.

(** The messages view in closed form: the route it asks for is between
    two different ids, so the fallback path is always the one posted. *)
Lemma sendMessage_closed_form nodeList connections (content : string) :
  sendMessageMutation nodeList connections content =
  Returned
    match find isSendTarget nodeList with
    | Some targetNode =>
        Posted {| Msg.senderId := "user";
                  Msg.receiverId := Some (nodeId targetNode);
                  Msg.content := content;
                  Msg.messageType := Msg.normal;
                  Msg.routingPath := Some ["user"%string; nodeId targetNode];
                  Msg.hops := 1%Z |}
    | None => Thrown "No online nodes available"
    end.
Proof.
  unfold sendMessageMutation. fold isSendTarget.
  rewrite <- filter_head_find.
  destruct (filter isSendTarget nodeList) as [|t rest] eqn:E;
    [reflexivity|].
  assert (Ht : isSendTarget t = true).
  { assert (Hin : In t (filter isSendTarget nodeList))
      by (rewrite E; now left).
    now apply filter_In in Hin. }
  unfold isSendTarget in Ht. apply andb_prop in Ht. destruct Ht as [_ Ht].
  unfold calculateOptimalRoute. rewrite findShortestPath_distinct.
  - reflexivity.
  - intros Hu. rewrite <- Hu, String.eqb_refl in Ht. discriminate.
Qed.

(** X14. When the messages view posts, the message goes from ["user"] to
    the first node of the list that is online and is not ["user"], with
    the two-element path from ["user"] to that node and 1 hop, whatever
    the connections are. *)
Theorem sendMessageMutation_posts nodeList connections (content : string)
    (body : Msg.InsertMessage) :
  sendMessageMutation nodeList connections content = Returned (Posted body) ->
  exists pre targetNode post,
    nodeList = pre ++ targetNode :: post /\
    (forall n, In n pre -> isOnline n = false \/ nodeId n = "user"%string) /\
    isOnline targetNode = true /\ nodeId targetNode <> "user"%string /\
    body = {| Msg.senderId := "user";
              Msg.receiverId := Some (nodeId targetNode);
              Msg.content := content;
              Msg.messageType := Msg.normal;
              Msg.routingPath := Some ["user"%string; nodeId targetNode];
              Msg.hops := 1%Z |}.
Proof.
  rewrite sendMessage_closed_form.
  destruct (find isSendTarget nodeList) as [t|] eqn:E; [|discriminate].
  intros [= <-].
  assert (Hsplit : exists pre post,
             nodeList = pre ++ t :: post /\
             forall n, In n pre -> isSendTarget n = false).
  { clear connections content. revert E.
    induction nodeList as [|a l IH]; simpl; [discriminate|].
    destruct (isSendTarget a) eqn:Ea.
    - intros [= ->]. exists [], l. split; [reflexivity | intros n []].
    - intros E. destruct (IH E) as [pre [post [-> Hpre]]].
      exists (a :: pre), post. split; [reflexivity|].
      intros n [<- | Hn]; [exact Ea | now apply Hpre]. }
  destruct Hsplit as [pre [post [Hl Hpre]]].
  apply find_some in E. destruct E as [_ Ht].
  unfold isSendTarget in Ht. apply andb_prop in Ht. destruct Ht as [Ho Hu].
  exists pre, t, post. repeat split; auto.
  - intros n Hn. pose proof (Hpre n Hn) as Hf. unfold isSendTarget in Hf.
    destruct (isOnline n); [|now left]. simpl in Hf. right.
    apply String.eqb_eq. now destruct (String.eqb (nodeId n) "user").
  - intros Eq. rewrite Eq in Hu. discriminate.
Qed.

(** The first node is ["user"], the second is offline, the third is the
    target. *)
Lemma sendMessageMutation_posts_witness :
  exists pre targetNode post,
    [mkNode "user";
     {| node_id := 0%Z; nodeId := "B"; name := "B"; latitude := 0%float;
        longitude := 0%float; isOnline := false;
        signalStrength := 0%float; lastSeen := 0%Z |};
     mkNode "C"]%string = pre ++ targetNode :: post /\
    (forall n, In n pre -> isOnline n = false \/ nodeId n = "user"%string) /\
    isOnline targetNode = true /\ nodeId targetNode <> "user"%string /\
    {| Msg.senderId := "user"; Msg.receiverId := Some "C"%string;
       Msg.content := "hello"; Msg.messageType := Msg.normal;
       Msg.routingPath := Some ["user"; "C"]%string; Msg.hops := 1%Z |}
    = {| Msg.senderId := "user";
         Msg.receiverId := Some (nodeId targetNode);
         Msg.content := "hello";
         Msg.messageType := Msg.normal;
         Msg.routingPath := Some ["user"%string; nodeId targetNode];
         Msg.hops := 1%Z |}.
Proof.
  apply (@sendMessageMutation_posts
           [mkNode "user";
            {| node_id := 0%Z; nodeId := "B"; name := "B";
               latitude := 0%float; longitude := 0%float; isOnline := false;
               signalStrength := 0%float; lastSeen := 0%Z |};
            mkNode "C"]%string
           [mkConn "user" "C" 1%float 10%float true] "hello").
  reflexivity.
Defined.

(** X15. The messages view throws ["No online nodes available"] exactly
    when every node of the list is offline or is ["user"]. *)
Theorem sendMessageMutation_throws_iff nodeList connections
    (content : string) :
  sendMessageMutation nodeList connections content
  = Returned (Thrown "No online nodes available") <->
  (forall n, In n nodeList ->
     isOnline n = false \/ nodeId n = "user"%string).
Proof.
  rewrite sendMessage_closed_form.
  destruct (find isSendTarget nodeList) as [t|] eqn:E; split.
  - discriminate.
  - intros H. exfalso. apply find_some in E. destruct E as [Hin Ht].
    unfold isSendTarget in Ht. apply andb_prop in Ht. destruct Ht as [Ho Hu].
    destruct (H t Hin) as [Hoff | Hid]; [congruence|].
    rewrite Hid in Hu. discriminate.
  - intros _ n Hn. pose proof (find_none _ _ E n Hn) as Hf.
    unfold isSendTarget in Hf. destruct (isOnline n); [|now left].
    simpl in Hf. right. apply String.eqb_eq.
    now destruct (String.eqb (nodeId n) "user").
  - reflexivity.
Qed.

(** ** The SOS endpoint *)

Lemma allReturned_some (A B : Type) (f : A -> B) (l : list A) :
  allReturned (map (fun a => Some (f a)) l) = Some (map f l).
Proof.
  induction l as [|a l IH]; simpl; [reflexivity | now rewrite IH].
Qed.

Section SosFacts.

Variable numberToString : Js.number -> string.

(** The response in closed form: the message text is computed or its
    computation throws, and a throw matters only if a recipient exists. *)
Lemma sosBroadcast_value nodeList senderId location content :
  sosBroadcast numberToString nodeList senderId location content =
  match sosContent numberToString senderId location content with
  | Some text =>
      SosSent (length (filter (isSosRecipient senderId) nodeList))
        (map (fun node =>
                {| Msg.senderId := senderId;
                   Msg.receiverId := Some (nodeId node);
                   Msg.content := text;
                   Msg.messageType := Msg.sos;
                   Msg.routingPath := Some [senderId; nodeId node];
                   Msg.hops := 1%Z |})
             (filter (isSosRecipient senderId) nodeList))
  | None =>
      match filter (isSosRecipient senderId) nodeList with
      | [] => SosSent 0 []
      | _ :: _ => SosFailed
      end
  end.
Proof.
  unfold sosBroadcast. fold (isSosRecipient senderId).
  unfold sosMessage.
  destruct (sosContent numberToString senderId location content) as [text|].
  - now rewrite allReturned_some.
  - now destruct (filter (isSosRecipient senderId) nodeList).
Qed.

End SosFacts.

(** X16. When the SOS endpoint answers with messages, there is one for
    each online node other than the sender, in the order of the node
    list; each goes from the sender to that node with message type [sos],
    the two-element path from the sender to the node and 1 hop; and the
    recipient count is the number of messages. *)
Theorem sosBroadcast_sent numberToString nodeList (sender : string)
    location content n msgs :
  sosBroadcast numberToString nodeList sender location content
  = SosSent n msgs ->
  n = length msgs /\
  map Msg.receiverId msgs
  = map (fun node => Some (nodeId node))
        (filter (isSosRecipient sender) nodeList) /\
  Forall (fun m =>
            Msg.senderId m = sender /\ Msg.messageType m = Msg.sos /\
            Msg.hops m = 1%Z /\
            exists node,
              In node nodeList /\ isOnline node = true /\
              nodeId node <> sender /\
              Msg.receiverId m = Some (nodeId node) /\
              Msg.routingPath m = Some [sender; nodeId node]) msgs.
Proof.
  rewrite sosBroadcast_value.
  destruct (sosContent numberToString sender location content) as [text|].
  - intros [= <- <-]. rewrite length_map, map_map. simpl.
    split; [reflexivity | split; [reflexivity|]].
    apply Forall_forall. intros m Hm. apply in_map_iff in Hm.
    destruct Hm as [node [<- Hnode]]. simpl.
    apply filter_In in Hnode. destruct Hnode as [Hin Hr].
    unfold isSosRecipient in Hr. apply andb_prop in Hr.
    destruct Hr as [Ho Hs]. repeat split; try reflexivity.
    exists node. repeat split; auto.
    intros E. rewrite E, String.eqb_refl in Hs. discriminate.
  - destruct (filter (isSosRecipient sender) nodeList) eqn:E;
      [|discriminate].
    intros [= <- <-]. simpl. repeat split; constructor.
Qed.

(** One node is offline, one is the sender, one receives. *)
Lemma sosBroadcast_sent_witness :
  let nodeList :=
    [mkNode "A";
     {| node_id := 0%Z; nodeId := "B"; name := "B"; latitude := 0%float;
        longitude := 0%float; isOnline := false;
        signalStrength := 0%float; lastSeen := 0%Z |};
     mkNode "C"]%string in
  let msgs :=
    [{| Msg.senderId := "A"; Msg.receiverId := Some "C";
        Msg.content := "help"; Msg.messageType := Msg.sos;
        Msg.routingPath := Some ["A"; "C"]; Msg.hops := 1%Z |}]%string in
  1 = length msgs /\
  map Msg.receiverId msgs
  = map (fun node => Some (nodeId node))
        (filter (isSosRecipient "A") nodeList) /\
  Forall (fun m =>
            Msg.senderId m = "A"%string /\ Msg.messageType m = Msg.sos /\
            Msg.hops m = 1%Z /\
            exists node,
              In node nodeList /\ isOnline node = true /\
              nodeId node <> "A"%string /\
              Msg.receiverId m = Some (nodeId node) /\
              Msg.routingPath m = Some ["A"%string; nodeId node]) msgs.
Proof.
  intros nodeList msgs.
  apply (@sosBroadcast_sent (fun _ => EmptyString) nodeList "A" None
           (Some "help"%string) 1 msgs).
  reflexivity.
Defined.

(** ** Screen positions *)

Lemma ltb_leb (a b : float) :
  PrimFloat.ltb a b = true -> PrimFloat.leb a b = true.
Proof.
  rewrite ltb_spec, leb_spec. unfold SFltb, SFleb.
  destruct (SFcompare (Prim2SF a) (Prim2SF b)) as [[]|]; congruence.
Qed.

(** [Math.max(lo, Math.min(hi, x))] is [NaN] for a [NaN] argument, and
    otherwise one of [x], [lo], [hi], between [lo] and [hi]. *)
Lemma clamp_spec (lo hi x : Js.number) :
  clampBounds lo hi = true ->
  let r := JsMath.max [lo; JsMath.min [hi; x]] in
  JsMath.isNaN r = JsMath.isNaN x /\
  (JsMath.isNaN x = false ->
   (r = x \/ r = lo \/ r = hi) /\
   PrimFloat.leb lo r = true /\ PrimFloat.leb r hi = true).
Proof.
  unfold clampBounds. intros H.
  repeat (apply andb_prop in H; destruct H as [H ?]).
  repeat match goal with
         | Hn : negb _ = true |- _ => apply negb_true_iff in Hn
         end.
  unfold JsMath.max, JsMath.min. simpl.
  repeat match goal with
         | Hb : _ = _ |- _ => rewrite Hb
         end.
  simpl. rewrite ?andb_false_r.
  destruct (JsMath.isNaN x) eqn:Ex.
  - split; [reflexivity | discriminate].
  - destruct (PrimFloat.ltb x hi) eqn:Exh.
    + rewrite Ex, ?andb_false_r.
      destruct (PrimFloat.ltb lo x) eqn:Elx.
      * split; [exact Ex|]. intros _.
        repeat split; [now left | now apply ltb_leb | now apply ltb_leb].
      * split; [assumption|]. intros _.
        repeat split; [right; now left | assumption | now apply ltb_leb].
    + match goal with Hh : JsMath.isNaN hi = false |- _ => rewrite Hh end.
      rewrite ?andb_false_r.
      match goal with Hlt : PrimFloat.ltb lo hi = true |- _ => rewrite Hlt end.
      split; [assumption|]. intros _.
      repeat split; [right; now right | now apply ltb_leb | assumption].
Qed.

(** X18. The position that the network simulation gives a node lies in
    the square from 50 to 350 in both coordinates, unless the projected
    coordinate is [NaN], and then so is the result. *)
Theorem simulation_position_in_frame (node : NetworkNode) :
  let p := NetworkSimulation.getNodePosition node in
  let x := ((longitude node - 77.4996) * 50000 + 200)%float in
  let y := ((12.9249 - latitude node) * 50000 + 200)%float in
  JsMath.isNaN (pos_x p) = JsMath.isNaN x /\
  JsMath.isNaN (pos_y p) = JsMath.isNaN y /\
  (JsMath.isNaN x = false ->
   PrimFloat.leb 50 (pos_x p) = true /\ PrimFloat.leb (pos_x p) 350 = true) /\
  (JsMath.isNaN y = false ->
   PrimFloat.leb 50 (pos_y p) = true /\ PrimFloat.leb (pos_y p) 350 = true).
Proof.
  intros p x y.
  destruct (@clamp_spec 50%float 350%float x eq_refl) as [Hx1 Hx2].
  destruct (@clamp_spec 50%float 350%float y eq_refl) as [Hy1 Hy2].
  split; [exact Hx1 | split; [exact Hy1 | split]].
  - intros H. now destruct (Hx2 H) as [_ Hb].
  - intros H. now destruct (Hy2 H) as [_ Hb].
Qed.

(** X19. The position that the home page gives a node lies between 60 and
    740 horizontally and between 60 and 340 vertically, unless the
    projected coordinate is [NaN], and then so is the result. *)
Theorem home_position_in_frame (node : NetworkNode) :
  let p := Home.getNodePosition node in
  let x := (((longitude node - (77.4996 - 0.02 / 2)) / 0.02) * 800)%float in
  let y := (((12.9249 + 0.02 / 2 - latitude node) / 0.02) * 400)%float in
  JsMath.isNaN (pos_x p) = JsMath.isNaN x /\
  JsMath.isNaN (pos_y p) = JsMath.isNaN y /\
  (JsMath.isNaN x = false ->
   PrimFloat.leb 60 (pos_x p) = true /\ PrimFloat.leb (pos_x p) 740 = true) /\
  (JsMath.isNaN y = false ->
   PrimFloat.leb 60 (pos_y p) = true /\ PrimFloat.leb (pos_y p) 340 = true).
Proof.
  intros p x y.
  destruct (@clamp_spec 60%float 740%float x eq_refl) as [Hx1 Hx2].
  destruct (@clamp_spec 60%float 340%float y eq_refl) as [Hy1 Hy2].
  split; [exact Hx1 | split; [exact Hy1 | split]].
  - intros H. now destruct (Hx2 H) as [_ Hb].
  - intros H. now destruct (Hy2 H) as [_ Hb].
Qed.

Example position_of_base_node :
  NetworkSimulation.getNodePosition
    {| node_id := 0%Z; nodeId := "user"; name := "You";
       latitude := 12.9249%float; longitude := 77.4996%float;
       isOnline := true; signalStrength := 100%float; lastSeen := 0%Z |}
  = {| pos_x := 200%float; pos_y := 200%float |}.
Proof. reflexivity. Qed.

Example position_is_clamped :
  NetworkSimulation.getNodePosition
    {| node_id := 0%Z; nodeId := "peenya"; name := "Peenya";
       latitude := 13.0280%float; longitude := 77.5200%float;
       isOnline := true; signalStrength := 72%float; lastSeen := 0%Z |}
  = {| pos_x := 350%float; pos_y := 50%float |}.
Proof. reflexivity. Qed.

(** ** Order and symmetry of the broadcast *)

(** A queue that begins with distinct unvisited ids yields them next, in
    their order. *)
Lemma broadcastLoop_prefix g pre : forall fuel vis q ord out,
  NoDup pre -> (forall x, In x pre -> ~ In x vis) ->
  broadcastLoop fuel g vis (pre ++ q) ord = Returned out ->
  exists rest, out = ord ++ pre ++ rest.
Proof.
  induction pre as [|x pre IH]; intros fuel vis q ord out Hn Hv Hrun.
  - exists (skipn (length ord) out). simpl.
    assert (Hgen : forall fuel vis q ord out,
               broadcastLoop fuel g vis q ord = Returned out ->
               exists rest, out = ord ++ rest).
    { clear. induction fuel as [|fuel IHf]; intros vis q ord out H;
        destruct q as [|y q]; simpl in H; try discriminate.
      - injection H as <-. exists []. now rewrite app_nil_r.
      - injection H as <-. exists []. now rewrite app_nil_r.
      - destruct (set_has y vis).
        + now apply IHf in H.
        + apply IHf in H. destruct H as [rest ->].
          exists (y :: rest). now rewrite <- app_assoc. }
    destruct (Hgen _ _ _ _ _ Hrun) as [rest ->].
    now rewrite skipn_app, skipn_all, Nat.sub_diag.
  - destruct fuel as [|fuel]; simpl in Hrun; [discriminate|].
    assert (Hx : set_has x vis = false)
      by (apply set_has_false, Hv; now left).
    rewrite Hx, (set_add_fresh _ _ Hx), enqueue_filter, <- app_assoc in Hrun.
    inversion Hn as [|? ? Hnot Hn']; subst.
    apply IH in Hrun; [|exact Hn'|].
    + destruct Hrun as [rest ->]. exists rest.
      now rewrite <- app_assoc.
    + intros y Hy Hin. apply in_app_or in Hin.
      destruct Hin as [Hin | [<- | []]].
      * apply (Hv y); [now right | exact Hin].
      * now apply Hnot.
Qed.

(** X20. After the start, [broadcastPath] lists the start's neighbors
    other than itself, in the order [getConnectedNodes] gives them, before
    any id farther away. *)
Theorem broadcastPath_neighbors_first nodeList connections (s : string) :
  let g := new_NetworkGraph nodeList connections in
  exists rest,
    broadcastPath g s =
    Returned (s :: filter (fun v => negb (String.eqb v s))
                          (getConnectedNodes g s) ++ rest).
Proof.
  intros g. destruct (broadcastPath_returns g s) as [out Hout].
  rewrite Hout. unfold broadcastPath, broadcastFuel in Hout.
  simpl in Hout. rewrite enqueue_filter in Hout. simpl in Hout.
  assert (Hf : filter (fun y => negb (String.eqb y s || false))
                      (getConnectedNodes g s)
               = filter (fun v => negb (String.eqb v s)) (getConnectedNodes g s)).
  { apply filter_ext. intros a. now rewrite orb_false_r. }
  rewrite Hf in Hout.
  rewrite <- (app_nil_r (filter _ _)) in Hout.
  apply broadcastLoop_prefix in Hout.
  - destruct Hout as [rest ->]. now exists rest.
  - apply NoDup_filter. unfold getConnectedNodes.
    destruct (map_get s (adjacencyList g)) as [m|] eqn:E; [|constructor].
    exact (map_get_Forall (fun m : JsMap Js.number => NoDup (map_keys m)) _
             (graph_inner_nodup nodeList connections) E).
  - intros x Hx [<- | []]. apply filter_In in Hx. destruct Hx as [_ Hx].
    now rewrite String.eqb_refl in Hx.
Qed.

Lemma walk_prepend g s u : In u (getConnectedNodes g s) ->
  forall k x, walk g u k x -> walk g s (S k) x.
Proof.
  intros Hu k x Hw. induction Hw as [|k a b _ IH Hin].
  - apply walk_S with s; [constructor | exact Hu].
  - now apply walk_S with a.
Qed.

Lemma reachable_symmetric g :
  (forall u v, In v (getConnectedNodes g u) -> In u (getConnectedNodes g v)) ->
  forall s x, reachable g s x -> reachable g x s.
Proof.
  intros Hsym s x [k Hw]. induction Hw as [|k u v _ IH Hin].
  - exists 0. constructor.
  - destruct IH as [k' Hk']. exists (S k').
    apply walk_prepend with u; [now apply Hsym | exact Hk'].
Qed.

(** X21. When both ends of every active connection are node ids, the
    broadcast audience is mutual: [x] is in the broadcast from [s] exactly
    when [s] is in the broadcast from [x]. *)
Theorem broadcastPath_mutual nodeList connections (s x : string) :
  (forall c, In c connections -> isActive c = true ->
     In (fromNodeId c) (map nodeId nodeList) /\
     In (toNodeId c) (map nodeId nodeList)) ->
  let g := new_NetworkGraph nodeList connections in
  exists out_s out_x,
    broadcastPath g s = Returned out_s /\
    broadcastPath g x = Returned out_x /\
    (In x out_s <-> In s out_x).
Proof.
  intros Href g.
  destruct (broadcastPath_bfs g s) as [out_s [Hs Hbs]].
  destruct (broadcastPath_bfs g x) as [out_x [Hx Hbx]].
  exists out_s, out_x. split; [exact Hs | split; [exact Hx|]].
  assert (Hsym : forall u v, In v (getConnectedNodes g u) ->
                             In u (getConnectedNodes g v)).
  { intros u v Hv. apply neighbor_origin in Hv.
    destruct Hv as [Hu [c [Hc [Ha Hj]]]]. destruct (Href c Hc Ha) as [Hf Ht].
    apply connected_iff_weight.
    apply active_connection_entry with c; auto; [now apply joins_sym|].
    destruct Hj as [[_ <-] | [<- _]]; assumption. }
  rewrite (bfs_reach Hbs), (bfs_reach Hbx).
  split; apply reachable_symmetric; exact Hsym.
Qed.

Lemma broadcastPath_mutual_witness :
  let g := new_NetworkGraph nodesABC linksABC in
  exists out_s out_x,
    broadcastPath g "A" = Returned out_s /\
    broadcastPath g "C" = Returned out_x /\
    (In "C"%string out_s <-> In "A"%string out_x).
Proof.
  apply (@broadcastPath_mutual nodesABC linksABC "A" "C").
  intros c [<- | [<- | []]] _; simpl; auto.
Defined.

(** ** Termination of the search loop from any state *)

Lemma selectStep_in dist l : forall acc id,
  fst (fold_left (selectStep dist) l acc) = Some id ->
  fst acc = Some id \/ In id l.
Proof.
  induction l as [|a l IH]; intros acc id H; simpl in *; [now left|].
  apply IH in H. destruct H as [H | H]; [|right; now right].
  unfold selectStep in H.
  destruct (PrimFloat.ltb _ _); simpl in H; [|now left].
  injection H as ->. right. now left.
Qed.

Lemma relax_keeps_unvisited current nbrs : forall st,
  unvisited (fold_left (relaxNeighbor current) nbrs st) = unvisited st.
Proof.
  induction nbrs as [|e nbrs IH]; intros st; simpl; [reflexivity|].
  rewrite IH. unfold relaxNeighbor.
  destruct (set_has _ _); [|reflexivity].
  now destruct (PrimFloat.ltb _ _).
Qed.

Lemma set_delete_shorter x (s : JsSet) :
  In x s -> length (set_delete x s) < length s.
Proof.
  unfold set_delete. induction s as [|a s IH]; simpl; [tauto|].
  intros [-> | H].
  - rewrite String.eqb_refl. simpl.
    pose proof (filter_length_le (fun y => negb (String.eqb x y)) s). lia.
  - specialize (IH H). destruct (negb (String.eqb x a)); simpl; lia.
Qed.

Lemma set_delete_incl x (s : JsSet) : incl (set_delete x s) s.
Proof. unfold set_delete. intros y Hy. now apply filter_In in Hy. Qed.

(** X22. From any state, whatever the distances recorded in it, the search
    loop leaves within as many iterations as there are unvisited nodes,
    and it only removes nodes from the unvisited set. *)
Theorem searchLoop_terminates (g : NetworkGraph) (dest : string) :
  forall fuel st,
    length (unvisited st) <= fuel ->
    exists st',
      searchLoop fuel g dest st = Returned st' /\
      incl (unvisited st') (unvisited st).
Proof.
  induction fuel as [|fuel IH]; intros st Hf.
  - destruct (unvisited st) eqn:E; simpl in Hf; [|lia].
    exists st. split; [simpl; now rewrite E | rewrite E; apply incl_refl].
  - simpl. destruct (unvisited st) as [|u0 us] eqn:E.
    + exists st. split; [reflexivity | rewrite E; apply incl_refl].
    + rewrite <- E in *.
      destruct (fst (selectMin (distances st) (unvisited st)))
        as [current|] eqn:Es;
        [|exists st; split; [reflexivity | apply incl_refl]].
      destruct (negb (Js.truthyStr current) || _);
        [exists st; split; [reflexivity | apply incl_refl]|].
      assert (Hin : In current (unvisited st)).
      { apply selectStep_in in Es. destruct Es as [Es | Es];
          [discriminate | exact Es]. }
      pose proof (set_delete_shorter _ _ Hin) as Hlt.
      pose proof (set_delete_incl current (unvisited st)) as Hincl.
      destruct (String.eqb current dest).
      * eexists. split; [reflexivity | exact Hincl].
      * destruct (map_get current (adjacencyList g)) as [nbrs|].
        -- destruct (IH (fold_left (relaxNeighbor current) nbrs
                           {| distances := distances st;
                              previous := previous st;
                              unvisited := set_delete current (unvisited st) |}))
             as [st' [Hrun Hsub]].
           { rewrite relax_keeps_unvisited. simpl. lia. }
           exists st'. split; [exact Hrun|].
           rewrite relax_keeps_unvisited in Hsub. simpl in Hsub.
           intros y Hy. apply Hincl. now apply Hsub.
        -- destruct (IH {| distances := distances st;
                           previous := previous st;
                           unvisited := set_delete current (unvisited st) |})
             as [st' [Hrun Hsub]]; [simpl; lia|].
           exists st'. split; [exact Hrun|].
           intros y Hy. apply Hincl. now apply Hsub.
Qed.

Lemma searchLoop_terminates_witness :
  exists st',
    searchLoop 3 (new_NetworkGraph nodesABC linksABC) "C"
      {| distances := [("A", 5%float); ("B", Js.Infinity); ("C", Js.Infinity)]%string;
         previous := [("A", None); ("B", None); ("C", None)]%string;
         unvisited := ["A"; "B"; "C"]%string |} = Returned st' /\
    incl (unvisited st') ["A"; "B"; "C"]%string.
Proof.
  apply (@searchLoop_terminates (new_NetworkGraph nodesABC linksABC) "C" 3
           {| distances := [("A", 5%float); ("B", Js.Infinity);
                            ("C", Js.Infinity)]%string;
              previous := [("A", None); ("B", None); ("C", None)]%string;
              unvisited := ["A"; "B"; "C"]%string |}).
  simpl. lia.
Defined.

(** From a state in which the start's distance reads as a number, the loop
    does settle the route [A, B, C]. *)
Example searchLoop_from_nonzero_start :
  option_map (fun st => (map_get "C"%string (distances st),
                         map_get "C"%string (previous st),
                         map_get "B"%string (previous st)))
    match searchLoop 3 (new_NetworkGraph nodesABC linksABC) "C"
            {| distances := [("A", 5%float); ("B", Js.Infinity);
                             ("C", Js.Infinity)]%string;
               previous := [("A", None); ("B", None); ("C", None)]%string;
               unvisited := ["A"; "B"; "C"]%string |} with
    | Returned st => Some st
    | OutOfFuel => None
    end
  = Some (Some 27%float, Some (Some "B"%string), Some (Some "A"%string)).
Proof. reflexivity. Qed.

(** ** Cost and hops of the routes *)

Lemma keys_nodup_get (V : Type) (m : JsMap V) k v :
  NoDup (map_keys m) -> In (k, v) m -> map_get k m = Some v.
Proof.
  induction m as [|[k' v'] m IH]; simpl; [tauto|].
  intros Hn [E | Hin].
  - injection E as -> ->. now rewrite String.eqb_refl.
  - inversion Hn as [|? ? Hnot Hn']; subst.
    destruct (String.eqb k k') eqn:E; [|now apply IH].
    apply String.eqb_eq in E. subst k'. exfalso. apply Hnot.
    change (In (fst (k, v)) (map fst m)). now apply in_map.
Qed.

Lemma last_cons (A : Type) (l : list A) (a d : A) :
  last (a :: l) d = last l a.
Proof.
  revert a d. induction l as [|b l IH]; intros a d; [reflexivity|].
  change (last (b :: l) d = last (b :: l) a). now rewrite (IH b d), (IH b a).
Qed.

Lemma set_delete_gone x (s : JsSet) : ~ In x (set_delete x s).
Proof.
  unfold set_delete. intros H. apply filter_In in H. destruct H as [_ H].
  now rewrite String.eqb_refl in H.
Qed.

(** The entry from [u] to [v] carries the weight recomputed from the last
    active connection that joins them. *)
Lemma connections_link (u v : string) l : forall adj,
  map_has u adj = true ->
  adjWeight (fold_left addConnection l adj) u v =
  fold_left
    (fun acc c =>
       if isActive c && joinsb c u v
       then Some (distance c * 10 + latency c / 10)%float else acc)
    l (adjWeight adj u v).
Proof.
  induction l as [|c l IH]; intros adj Hu; simpl; [reflexivity|].
  rewrite IH by now rewrite addConnection_has.
  f_equal. rewrite addConnection_weight. unfold joinsb, calculateEdgeWeight.
  destruct (isActive c); simpl; [|reflexivity].
  rewrite (String.eqb_sym (fromNodeId c) u), (String.eqb_sym (toNodeId c) v),
          (String.eqb_sym (fromNodeId c) v), (String.eqb_sym (toNodeId c) u).
  assert (Hto : String.eqb u (toNodeId c) = true ->
                map_has (toNodeId c) adj = true)
    by (intros E; apply String.eqb_eq in E; now rewrite <- E).
  assert (Hfrom : String.eqb u (fromNodeId c) = true ->
                  map_has (fromNodeId c) adj = true)
    by (intros E; apply String.eqb_eq in E; now rewrite <- E).
  destruct (String.eqb u (toNodeId c));
    [rewrite (Hto eq_refl)|];
    (destruct (String.eqb u (fromNodeId c));
     [rewrite (Hfrom eq_refl)|]);
    destruct (String.eqb v (fromNodeId c)), (String.eqb v (toNodeId c));
    reflexivity.
Qed.

Lemma edge_is_link nodeList connections (u v : string) w :
  edgeWeight (new_NetworkGraph nodeList connections) u v = Some w ->
  linkWeight connections u v = Some w.
Proof.
  intros H.
  assert (Hu : map_has u (snd (fold_left addNode nodeList ([], []))) = true).
  { destruct (map_has u (snd (fold_left addNode nodeList ([], [])))) eqn:E;
      [reflexivity|].
    exfalso. unfold edgeWeight, new_NetworkGraph in H. simpl in H.
    rewrite <- (connections_has connections) in E. unfold map_has in E.
    destruct (map_get u (fold_left addConnection connections _));
      discriminate. }
  unfold edgeWeight, new_NetworkGraph in H. simpl in H.
  fold (adjWeight
          (fold_left addConnection connections
             (snd (fold_left addNode nodeList ([], [])))) u v) in H.
  rewrite (connections_link u v connections _ Hu), initial_weight in H.
  exact H.
Qed.

Section Bookkeeping.

Variable g : NetworkGraph.
Hypothesis inner_nodup :
  Forall (fun kv => NoDup (map_keys (snd kv))) (adjacencyList g).
Variable st0 : SearchState.

Lemma relax_booked current st nb w :
  Booked g st0 st -> ~ In current (unvisited st) ->
  Js.truthyStr current = true -> edgeWeight g current nb = Some w ->
  Booked g st0 (relaxNeighbor current st (nb, w)).
Proof.
  intros H Hcur Htr Hedge. unfold relaxNeighbor. simpl.
  destruct (set_has nb (unvisited st)) eqn:Hnb; [|exact H].
  destruct (PrimFloat.ltb _ _); [|exact H].
  apply set_has_In in Hnb.
  assert (Hne : forall x, ~ In x (unvisited st) -> x <> nb)
    by (intros x Hx ->; now apply Hx).
  constructor; unfold readPrevious; simpl.
  - intros v u Hr. destruct (String.eqb v nb) eqn:E.
    + apply String.eqb_eq in E. subst v.
      rewrite map_get_set_same in Hr. simpl in Hr. rewrite Htr in Hr.
      injection Hr as <-. split; [exact Hcur|]. exists w.
      split; [exact Hedge|].
      rewrite map_get_set_same, map_get_set_other by now apply Hne.
      reflexivity.
    + apply String.eqb_neq in E. rewrite map_get_set_other in Hr by exact E.
      destruct (booked_previous H v Hr) as [Hu [w' [He Hd]]].
      split; [exact Hu|]. exists w'. split; [exact He|].
      rewrite !map_get_set_other by (try exact E; now apply Hne).
      exact Hd.
  - intros v Hr. destruct (String.eqb v nb) eqn:E.
    + apply String.eqb_eq in E. subst v.
      rewrite map_get_set_same in Hr. simpl in Hr. rewrite Htr in Hr.
      discriminate.
    + apply String.eqb_neq in E.
      rewrite map_get_set_other in Hr by exact E.
      rewrite map_get_set_other by exact E.
      exact (booked_initial H v Hr).
Qed.

Lemma relax_all_booked current nbrs : forall st,
  (forall nb w, In (nb, w) nbrs -> edgeWeight g current nb = Some w) ->
  Booked g st0 st -> ~ In current (unvisited st) ->
  Js.truthyStr current = true ->
  Booked g st0 (fold_left (relaxNeighbor current) nbrs st).
Proof.
  induction nbrs as [|[nb w] nbrs IH]; intros st He H Hcur Htr; simpl;
    [exact H|].
  apply IH.
  - intros nb' w' Hin. apply He. now right.
  - apply relax_booked; auto. apply He. now left.
  - change (relaxNeighbor current st (nb, w))
      with (fold_left (relaxNeighbor current) [(nb, w)] st).
    now rewrite relax_keeps_unvisited.
  - exact Htr.
Qed.

(** The search loop keeps the bookkeeping. *)
Lemma searchLoop_booked dest : forall fuel st st',
  Booked g st0 st -> searchLoop fuel g dest st = Returned st' ->
  Booked g st0 st'.
Proof.
  induction fuel as [|fuel IH]; intros st st' H Hrun; simpl in Hrun.
  - destruct (unvisited st); [|discriminate]. now injection Hrun as <-.
  - destruct (unvisited st) as [|u0 us] eqn:E; [now injection Hrun as <-|].
    rewrite <- E in *. clear E u0 us.
    destruct (fst (selectMin (distances st) (unvisited st)))
      as [current|]; [|now injection Hrun as <-].
    destruct (negb (Js.truthyStr current)) eqn:Htr; simpl in Hrun;
      [now injection Hrun as <-|].
    apply negb_false_iff in Htr.
    destruct (PrimFloat.eqb _ Js.Infinity); [now injection Hrun as <-|].
    set (st1 := {| distances := distances st; previous := previous st;
                   unvisited := set_delete current (unvisited st) |}) in *.
    assert (H1 : Booked g st0 st1).
    { constructor.
      - intros v u Hr. destruct (booked_previous H v Hr) as [Hu Hw].
        split; [|exact Hw]. intros Hin. apply Hu.
        exact (set_delete_incl _ _ _ Hin).
      - exact (booked_initial H). }
    assert (Hgone : ~ In current (unvisited st1))
      by apply set_delete_gone.
    destruct (String.eqb current dest); [now injection Hrun as <-|].
    destruct (map_get current (adjacencyList g)) as [nbrs|] eqn:En.
    + apply IH in Hrun; [exact Hrun|].
      apply relax_all_booked; auto.
      intros nb w Hin. unfold edgeWeight. rewrite En.
      apply keys_nodup_get; [|exact Hin].
      exact (map_get_Forall (fun m : JsMap Js.number => NoDup (map_keys m))
               _ inner_nodup En).
    + now apply IH in Hrun.
Qed.

(** The walk back along [previous] returns a chain that ends with the
    nodes it was given and begins at a node without predecessor. *)
Lemma reconstruct_chain st : forall fuel c acc p,
  IsChain st (c :: acc) ->
  reconstruct fuel (previous st) (Some c) acc = Returned p ->
  IsChain st p /\
  (exists h t, p = h :: t /\ readPrevious st h = None) /\
  exists pre, p = pre ++ c :: acc.
Proof.
  induction fuel as [|fuel IH]; intros c acc p Hc Hrun; simpl in Hrun;
    [discriminate|].
  fold (readPrevious st c) in Hrun.
  destruct (readPrevious st c) as [c'|] eqn:E.
  - apply IH in Hrun; [|now split].
    destruct Hrun as [Hp [Hh [pre ->]]].
    split; [exact Hp | split; [exact Hh|]].
    exists (pre ++ [c']). now rewrite <- app_assoc.
  - assert (Hp : p = c :: acc) by (destruct fuel; now injection Hrun as <-).
    subst p. split; [exact Hc | split].
    + now exists c, acc.
    + now exists [].
Qed.

End Bookkeeping.

(** Along a chain of a booked state, the distance read at the end is the
    cost accumulated from the distance read at the beginning, with the
    weights recomputed from the connection list, as long as every cost on
    the way reads as itself (is neither [NaN] nor [-0]). *)
Lemma chain_cost nodeList connections st0 st :
  Booked (new_NetworkGraph nodeList connections) st0 st ->
  forall p u acc,
    IsChain st (u :: p) ->
    Js.orElse (map_get u (distances st)) 0%float = acc ->
    (forall c, In c (partialCosts connections acc (u :: p)) ->
               Js.orElse (Some c) 0%float = c) ->
    pathCostFrom connections acc (u :: p)
    = Some (Js.orElse (map_get (last p u) (distances st)) 0%float).
Proof.
  intros H. induction p as [|v p IH]; intros u acc Hc Hacc Hclean.
  - simpl. now rewrite Hacc.
  - destruct Hc as [Hr Hc].
    destruct (booked_previous H v Hr) as [_ [w [He Hd]]].
    apply edge_is_link in He.
    change (pathCostFrom connections acc (u :: v :: p))
      with (match linkWeight connections u v with
            | Some w => pathCostFrom connections (acc + w)%float (v :: p)
            | None => None
            end).
    change (partialCosts connections acc (u :: v :: p))
      with (match linkWeight connections u v with
            | Some w => (acc + w)%float
                        :: partialCosts connections (acc + w)%float (v :: p)
            | None => []
            end) in Hclean.
    rewrite He in *. rewrite Hacc in Hd.
    rewrite (IH v (acc + w)%float Hc).
    + now rewrite last_cons.
    + rewrite Hd. apply Hclean. now left.
    + intros c Hin. apply Hclean. now right.
Qed.



(** The loop of [findAllPaths] stores the route it is given for [B]. *)
Example allPaths_with_route_to_B :
  findAllPathsWith
    (fun Y : string =>
       Returned (if String.eqb Y "B"
                 then Some {| path := ["A"; "B"]%string;
                              totalDistance := 11%float; hops := 1%Z |}
                 else None))
    (map_keys (nodes (new_NetworkGraph nodesABC linksABC))) "A"
  = Returned [("B"%string,
               {| path := ["A"; "B"]%string; totalDistance := 11%float;
                  hops := 1%Z |})].
Proof. reflexivity. Qed.

(** The search from a state in which [A] has distance 5 returns the route
    over both links. *)
Example route_from_nonzero_start :
  routeFromState (new_NetworkGraph nodesABC linksABC) "A" "C"
    {| distances := [("A", 5%float); ("B", Js.Infinity);
                     ("C", Js.Infinity)]%string;
       previous := [("A", None); ("B", None); ("C", None)]%string;
       unvisited := ["A"; "B"; "C"]%string |}
  = Returned (Some {| path := ["A"; "B"; "C"]%string;
                      totalDistance := 27%float; hops := 2%Z |}).
Proof. reflexivity. Qed.
